(** * flamego/cache: the in-memory TTL store, the file store and the GC
    scheduler, embedded from the Go sources.

    Conventions of the embedding.
    - Go's [int] is [Z]. Slice lengths stay below 2^63, so the only place
      where the source guards against wrap-around ([j1 < 0] in
      [container/heap.down]) is kept as written; [down_guard_wrap64] shows
      that the 64-bit computation takes the same branch.
    - [time.Time] is an instant on a line of nanoseconds ([Z]), a
      [time.Duration] a signed number of nanoseconds.
    - A computation that can panic (index out of range, nil dereference)
      returns [option]; [None] is the panic.  Loops carry a fuel argument
      chosen by their wrapper; running out of fuel is [None] as well, and the
      theorems show that neither happens.
    - [*memoryItem] values are addresses into an object store, so that the
      slice [heap] and the map [index] alias the same items as in Go.
    - Every method of [memoryStore] works under the store's lock; a call is
      one atomic step here, except [GC], which takes the lock once per round
      of its loop: a round is a step of its own ([GC_round]).  The injected
      clock [nowFunc] is read as one instant [now] per call.
    - The file store works on a file system that is passed in and handed
      back: a finite map from paths to files and directories.  What
      [filepath.WalkDir] finds below the root directory is given to [GC] as
      the sequence of entries the traversal presents. *)

From stdpp Require Import gmap strings list fin_maps.
From Stdlib Require Import ZArith Lia Sorted Ascii.

Local Open Scope Z_scope.

(** ** Go values shared by the packages *)

(** [interface{}]: the nil interface or a dynamically typed value. *)
Inductive any : Type :=
  | Nil
  | Str (s : string)
  | Int (n : Z).

(** [error]: [os.ErrNotExist], an opaque error, and [errors.Wrap]. *)
Inductive error : Type :=
  | ErrNotExist
  | ErrMsg (msg : string)
  | ErrWrap (cause : error) (msg : string).

Definition time := Z.
Definition Duration := Z.

Definition Second : Duration := 1000000000.
Definition Minute : Duration := 60 * Second.

Definition Before (t u : time) : bool := t <? u.
Definition After (t u : time) : bool := u <? t.
Definition Add (t : time) (d : Duration) : time := t + d.

(** [context.Context], as far as the code reads it: the outcome of the n-th
    non-blocking poll of [ctx.Done()]. *)
Definition Context := nat → bool.
Definition Background : Context := λ _, false.

(** Slices indexed by a Go [int]; out of range panics. *)
Definition slice_get {A} (l : list A) (i : Z) : option A :=
  if decide (0 ≤ i) then l !! Z.to_nat i else None.

Definition slice_set {A} (l : list A) (i : Z) (x : A) : option (list A) :=
  if decide (0 ≤ i < Z.of_nat (length l)) then Some (<[Z.to_nat i := x]> l) else None.

(** 64-bit two's complement wrap-around of an [int] result. *)
Definition wrap64 (z : Z) : Z := (z + 2 ^ 63) mod 2 ^ 64 - 2 ^ 63.

(** ** container/heap

    The package of the Go standard library that memory.go drives its slice
    with: [up], [down], [Push] and [Remove] as in go/src/container/heap. *)

Module heap.

(** [heap.Interface]: [sort.Interface] with [Push] and [Pop].  [X] is the
    element type behind the [interface{}] argument.  The methods [Push] and
    [Pop] carry an underscore to keep them apart from the package's
    functions [heap.Push] and [heap.Remove]. *)
Class Interface (H X : Type) := {
  Len : H → Z;
  Less : H → Z → Z → option bool;
  Swap : H → Z → Z → option H;
  Push_ : H → X → option H;
  Pop_ : H → option (H * X)
}.

Section generic.
Context {H X : Type} `{!Interface H X}.

(** [i := (j - 1) / 2]; Go's division truncates toward zero. *)
Definition parent (j : Z) : Z := Z.quot (j - 1) 2.

(** The body of [up]: [for { i := (j - 1) / 2; if i == j || !h.Less(j, i)
    { break }; h.Swap(i, j); j = i }]. *)
Fixpoint up_loop (fuel : nat) (h : H) (j : Z) : option H :=
  match fuel with
  | O => None
  | S fuel =>
      let i := parent j in
      if decide (i = j) then Some h
      else
        b ← Less h j i;
        if negb b then Some h
        else h' ← Swap h i j; up_loop fuel h' i
  end.

Definition up (h : H) (j : Z) : option H :=
  up_loop (S (Z.to_nat j)) h j.

(** The body of [down], returning the final [i]: [j1 := 2*i + 1] ends the
    loop when [j1 >= n || j1 < 0]; [j] is the right child when it exists and
    is less than the left one; the loop ends when [!h.Less(j, i)]. *)
Fixpoint down_loop (fuel : nat) (h : H) (i n : Z) : option (H * Z) :=
  match fuel with
  | O => None
  | S fuel =>
      let j1 := 2 * i + 1 in
      if (n <=? j1) || (j1 <? 0) then Some (h, i)
      else
        r ← (if j1 + 1 <? n then Less h (j1 + 1) j1 else Some false);
        let j := if (r : bool) then j1 + 1 else j1 in
        b ← Less h j i;
        if negb b then Some (h, i)
        else h' ← Swap h i j; down_loop fuel h' j n
  end.

(** [down] returns [i > i0]. *)
Definition down (h : H) (i0 n : Z) : option (H * bool) :=
  '(h', i) ← down_loop (S (Z.to_nat n)) h i0 n;
  Some (h', i0 <? i).

(** [heap.Push]: [h.Push(x); up(h, h.Len()-1)]. *)
Definition Push (h : H) (x : X) : option H :=
  h' ← Push_ h x;
  up h' (Len h' - 1).

(** [heap.Remove]: [n := h.Len() - 1; if n != i { h.Swap(i, n); if
    !down(h, i, n) { up(h, i) } }; return h.Pop()]. *)
Definition Remove (h : H) (i : Z) : option (H * X) :=
  let n := Len h - 1 in
  h' ← (if decide (n ≠ i) then
          h1 ← Swap h i n;
          '(h2, moved) ← down h1 i n;
          if negb moved then up h2 i else Some h2
        else Some h);
  Pop_ h'.
End generic.

End heap.

(** ** memory.go *)

(** The address of an item allocated by [newMemoryItem]. *)
Definition loc := nat.

(** [memoryItem]; [index] is the item's position in the heap slice. *)
Record memoryItem := {
  item_key : string;
  item_value : any;
  item_expiredAt : time;
  item_index : Z
}.

(** [memoryStore]: the slice [heap] and the map [index] hold pointers;
    [objs] is the memory they point into.  The lock and the clock are not
    fields here: a call is one atomic step and takes the clock reading as an
    argument. *)
Record memoryStore := {
  objs : gmap loc memoryItem;
  heap : list loc;
  index : gmap string loc
}.

(** The assignment [p.index = i] through the pointer [p]. *)
Definition set_index (o : gmap loc memoryItem) (p : loc) (i : Z)
  : option (gmap loc memoryItem) :=
  it ← o !! p;
  Some (<[p := {| item_key := item_key it; item_value := item_value it;
                   item_expiredAt := item_expiredAt it; item_index := i |}]> o).

(** [newMemoryItem]: allocates the item at a fresh address; [index] has its
    zero value. *)
Definition newMemoryItem (o : gmap loc memoryItem) (key : string) (value : any)
    (expiredAt : time) : gmap loc memoryItem * loc :=
  let p := fresh (dom o) in
  (<[p := {| item_key := key; item_value := value;
              item_expiredAt := expiredAt; item_index := 0 |}]> o, p).

(** [newMemoryStore]: a nil slice and an empty map. *)
Definition newMemoryStore : memoryStore :=
  {| objs := ∅; heap := []; index := ∅ |}.

Module memoryStore.

(** The five methods of [heap.Interface]. *)
Definition Len (s : memoryStore) : Z := Z.of_nat (length (heap s)).

Definition Less (s : memoryStore) (i j : Z) : option bool :=
  pi ← slice_get (heap s) i;
  pj ← slice_get (heap s) j;
  a ← objs s !! pi;
  b ← objs s !! pj;
  Some (Before (item_expiredAt a) (item_expiredAt b)).

(** [s.heap[i], s.heap[j] = s.heap[j], s.heap[i]], then
    [s.heap[i].index = i] and [s.heap[j].index = j]. *)
Definition Swap (s : memoryStore) (i j : Z) : option memoryStore :=
  pi ← slice_get (heap s) i;
  pj ← slice_get (heap s) j;
  h1 ← slice_set (heap s) i pj;
  h2 ← slice_set h1 j pi;
  qi ← slice_get h2 i;
  o1 ← set_index (objs s) qi i;
  qj ← slice_get h2 j;
  o2 ← set_index o1 qj j;
  Some {| objs := o2; heap := h2; index := index s |}.

(** [item.index = n], [append], [s.index[item.key] = item]. *)
Definition Push (s : memoryStore) (item : loc) : option memoryStore :=
  let n := Len s in
  o1 ← set_index (objs s) item n;
  it ← o1 !! item;
  Some {| objs := o1; heap := heap s ++ [item];
          index := <[item_key it := item]> (index s) |}.

(** [item.index = -1], the reslice [s.heap[:n-1]] and
    [delete(s.index, item.key)].  The slot [n-1] is set to nil and cut off by
    the reslice at once; only the reslice is kept. *)
Definition Pop (s : memoryStore) : option (memoryStore * loc) :=
  let n := Len s in
  item ← slice_get (heap s) (n - 1);
  o1 ← set_index (objs s) item (-1);
  it ← o1 !! item;
  Some ({| objs := o1; heap := take (Z.to_nat (n - 1)) (heap s);
           index := delete (item_key it) (index s) |}, item).

#[global] Instance heap_Interface : heap.Interface memoryStore loc := {|
  heap.Len := Len;
  heap.Less := Less;
  heap.Swap := Swap;
  heap.Push_ := Push;
  heap.Pop_ := Pop
|}.

(** [Get].  The result: the store, the returned value, and the key of the
    [Delete] launched in a goroutine, if any. *)
Definition Get (now : time) (s : memoryStore) (key : string)
  : option (memoryStore * any * option string) :=
  match index s !! key with
  | None => Some (s, Nil, None)
  | Some item =>
      it ← objs s !! item;
      if negb (Before now (item_expiredAt it)) then Some (s, Nil, Some key)
      else Some (s, item_value it, None)
  end.

(** [Set]: a new item expiring at [now.Add(lifetime)] and [heap.Push]. *)
Definition Set_ (now : time) (s : memoryStore) (key : string) (value : any)
    (lifetime : Duration) : option (memoryStore * option error) :=
  let '(o, item) := newMemoryItem (objs s) key value (Add now lifetime) in
  s' ← heap.Push {| objs := o; heap := heap s; index := index s |} item;
  Some (s', None).

(** [Delete]: [heap.Remove(s, item.index)] for the item of the key. *)
Definition Delete (s : memoryStore) (key : string)
  : option (memoryStore * option error) :=
  match index s !! key with
  | None => Some (s, None)
  | Some item =>
      it ← objs s !! item;
      '(s', _) ← heap.Remove s (item_index it);
      Some (s', None)
  end.

(** [Flush]: a new empty slice and a new empty map. *)
Definition Flush (s : memoryStore) : option (memoryStore * option error) :=
  Some ({| objs := objs s; heap := []; index := ∅ |}, None).

(** One round of the loop of [GC]: the closure that runs under the lock and
    tells whether the loop is done.  It is done when the heap is empty or its
    root is not expired; otherwise it calls [heap.Remove(s, c.index)] for the
    root [c]. *)
Definition GC_round (now : time) (s : memoryStore) : option (memoryStore * bool) :=
  if decide (Len s = 0) then Some (s, true)
  else
    c ← slice_get (heap s) 0;
    it ← objs s !! c;
    if Before now (item_expiredAt it) then Some (s, true)
    else
      '(s', _) ← heap.Remove s (item_index it);
      Some (s', false).

(** The [for] loop of [GC], one round per unit of fuel: return when the
    context is done, else run a round and stop when it says so.  [polls]
    counts the reads of [ctx.Done()] so far. *)
Fixpoint GC_loop (fuel : nat) (ctx : Context) (polls : nat) (now : time)
    (s : memoryStore) : option memoryStore :=
  match fuel with
  | O => None
  | S fuel =>
      if ctx polls then Some s
      else
        '(s', done) ← GC_round now s;
        if (done : bool) then Some s'
        else GC_loop fuel ctx (S polls) now s'
  end.

(** [GC]; every path returns nil. *)
Definition GC (ctx : Context) (now : time) (s : memoryStore)
  : option (memoryStore * option error) :=
  s' ← GC_loop (S (length (heap s))) ctx 0 now s;
  Some (s', None).

End memoryStore.

(** ** Sequences of public operations *)

(** One critical section of the store, with the clock reading (and context)
    it observes: a call of [Get], [Set], [Delete] or [Flush], a whole [GC]
    that no other goroutine interrupts, or a single round of [GC]'s loop, as
    when other calls get the lock between two rounds. *)
Inductive call : Type :=
  | CallGet (now : time) (key : string)
  | CallSet (now : time) (key : string) (value : any) (lifetime : Duration)
  | CallDelete (key : string)
  | CallFlush
  | CallGC (ctx : Context) (now : time)
  | CallGCRound (now : time).

(** The store a call leaves behind. *)
Definition exec (c : call) (s : memoryStore) : option memoryStore :=
  match c with
  | CallGet now key => r ← memoryStore.Get now s key; Some (r.1.1)
  | CallSet now key value lifetime =>
      r ← memoryStore.Set_ now s key value lifetime; Some (r.1)
  | CallDelete key => r ← memoryStore.Delete s key; Some (r.1)
  | CallFlush => r ← memoryStore.Flush s; Some (r.1)
  | CallGC ctx now => r ← memoryStore.GC ctx now s; Some (r.1)
  | CallGCRound now => r ← memoryStore.GC_round now s; Some (r.1)
  end.

(** The calls of [cs] one after the other, each under the lock. *)
Fixpoint run (cs : list call) (s : memoryStore) : option memoryStore :=
  match cs with
  | [] => Some s
  | c :: cs => s' ← exec c s; run cs s'
  end.

(** ** Observations of the in-memory store *)

(** The expiration instant of the item at an address (0 if none). *)
Definition exp_of (o : gmap loc memoryItem) (p : loc) : time :=
  default 0 (item_expiredAt <$> o !! p).

(** The expiration instants held by the heap, slot by slot. *)
Definition exps (s : memoryStore) : list time := exp_of (objs s) <$> heap s.

(** Reads the root's expiration and removes the root as [GC] does, [n]
    times over. *)
Fixpoint drain (n : nat) (s : memoryStore) : option (list time) :=
  match n with
  | O => Some []
  | S n =>
      c ← slice_get (heap s) 0;
      it ← objs s !! c;
      '(s', _) ← heap.Remove s (item_index it);
      rest ← drain n s';
      Some (item_expiredAt it :: rest)
  end.

(** The items [GC_loop] pops, in the order of the loop: the root of each
    round that is not the last. *)
Fixpoint GC_removed (fuel : nat) (ctx : Context) (polls : nat) (now : time)
    (s : memoryStore) : option (list loc) :=
  match fuel with
  | O => None
  | S fuel =>
      if ctx polls then Some []
      else
        '(s', done) ← memoryStore.GC_round now s;
        if (done : bool) then Some []
        else
          c ← slice_get (heap s) 0;
          rest ← GC_removed fuel ctx (S polls) now s';
          Some (c :: rest)
  end.

(** ** file.go: the read path *)

Module fileStore.

(** [fileItem], the envelope written to a file. *)
Record fileItem := {
  Value : any;
  ExpiredAt : time
}.

(** What a [Decoder] hands back as [interface{}]: a [*fileItem] (possibly
    the nil pointer) or a value of another dynamic type. *)
Inductive decoded : Type :=
  | PtrFileItem (item : option fileItem)
  | Other (v : any).

Definition Decoder := list Byte.byte → decoded * option error.

(** The local file system as far as [os.Stat] and [os.ReadFile] see it. *)
Inductive node : Type :=
  | File (content : list Byte.byte)
  | Dir.

(** [fileStore], without the encoder, which the read path does not use;
    [nowFunc] is the clock reading of the call. *)
Record t := {
  nowFunc : time;
  rootDir : string;
  decoder : Decoder
}.

(** [filepath.Join(s.rootDir, string(hash[0]), string(hash[1]), hash)],
    the hex SHA-1 digest being a parameter. *)
Definition filename (sha1_hex : string → string) (s : t) (key : string) : string :=
  let hash := sha1_hex key in
  (rootDir s +:+ "/" +:+ String.substring 0 1 hash +:+ "/" +:+ String.substring 1 1 hash
     +:+ "/" +:+ hash)%string.

(** [isFile]: [os.Stat] succeeds and the path is not a directory. *)
Definition isFile (fs : gmap string node) (path : string) : bool :=
  match fs !! path with
  | Some (File _) => true
  | _ => false
  end.

(** [os.ReadFile]. *)
Definition ReadFile (fs : gmap string node) (path : string)
  : list Byte.byte * option error :=
  match fs !! path with
  | Some (File content) => (content, None)
  | Some Dir => ([], Some (ErrMsg "read: is a directory"))
  | None => ([], Some (ErrMsg "open: no such file or directory"))
  end.

(** [read]: a failed read and a decoder error are wrapped; a decoded value
    that is not a [*fileItem] is [os.ErrNotExist]. *)
Definition read (s : t) (fs : gmap string node) (filename : string)
  : option fileItem * option error :=
  let '(binary, err) := ReadFile fs filename in
  match err with
  | Some err => (None, Some (ErrWrap err "read file"))
  | None =>
      let '(v, err) := decoder s binary in
      match err with
      | Some err => (None, Some (ErrWrap err "decode"))
      | None =>
          match v with
          | PtrFileItem item => (item, None)
          | Other _ => (None, Some ErrNotExist)
          end
      end
  end.

(** [Get].  The result: the returned pair and the key of the [Delete]
    launched in a goroutine, if any; [None] is the nil dereference of
    [item]. *)
Definition Get (sha1_hex : string → string) (s : t) (fs : gmap string node)
    (key : string) : option (any * option error * option string) :=
  let filename := filename sha1_hex s key in
  if negb (isFile fs filename) then Some (Nil, Some ErrNotExist, None)
  else
    let '(item, err) := read s fs filename in
    match err with
    | Some err => Some (Nil, Some err, None)
    | None =>
        item ← item;
        if negb (After (ExpiredAt item) (nowFunc s))
        then Some (Nil, Some ErrNotExist, Some key)
        else Some (Value item, None, None)
    end.

End fileStore.

(** ** manager.go: the GC scheduler *)

Module manager.

(** What the [select] finds when it stops blocking: the channels that can
    proceed and, when both can, the case the runtime picks. *)
Inductive wake : Type :=
  | StopReady
  | TickReady
  | BothReady (pick_stop : bool).

(** The [select] runs the stop case. *)
Definition takes_stop (w : wake) : bool :=
  match w with
  | StopReady => true
  | TickReady => false
  | BothReady pick_stop => pick_stop
  end.

(** A sender is waiting on the stop channel. *)
Definition stop_ready (w : wake) : bool :=
  match w with
  | TickReady => false
  | _ => true
  end.

(** What the goroutine does, in order. *)
Inductive event : Type :=
  | NewTicker
  | CallGC
  | CallErrFunc (err : error)
  | Select (w : wake)
  | TickerStop
  | Return.

Section startGC.
(** [m.store.GC(ctx)] on the state of the managed store. *)
Context {S : Type} (GC : S → S * option error).

(** The [for] loop against the first wake-ups of the [select]; when the
    list ends the goroutine is blocked in the [select]. *)
Fixpoint loop (wakes : list wake) (store : S) : S * list event :=
  let '(store, err) := GC store in
  let report := match err with Some err => [CallErrFunc err] | None => [] end in
  match wakes with
  | [] => (store, CallGC :: report)
  | w :: wakes =>
      if takes_stop w
      then (store, CallGC :: report ++ [Select w; TickerStop; Return])
      else
        let '(store', rest) := loop wakes store in
        (store', CallGC :: report ++ Select w :: rest)
  end.

(** The goroutine of [startGC]: [time.NewTicker(interval)], then the loop. *)
Definition startGC (wakes : list wake) (store : S) : S * list event :=
  let '(store', trace) := loop wakes store in
  (store', NewTicker :: trace).
End startGC.

Definition is_CallGC (e : event) : bool :=
  match e with CallGC => true | _ => false end.

(** Number of [GC] calls in a trace. *)
Fixpoint calls (trace : list event) : nat :=
  match trace with
  | [] => 0%nat
  | e :: rest => ((if is_CallGC e then 1 else 0) + calls rest)%nat
  end.

(** The part of a trace after the first [select] at which the stop
    channel could proceed: what runs once stop has been signalled and the
    cycle in flight has ended. *)
Fixpoint after_signal (trace : list event) : option (list event) :=
  match trace with
  | [] => None
  | Select w :: rest => if stop_ready w then Some rest else after_signal rest
  | _ :: rest => after_signal rest
  end.

(** A blocked sender stays: once the stop channel can proceed it can at
    every later [select]. *)
Fixpoint stop_persists (wakes : list wake) : bool :=
  match wakes with
  | [] => true
  | w :: rest =>
      if stop_ready w then forallb stop_ready rest else stop_persists rest
  end.

End manager.

(** ** The scheduler over the in-memory store; a file store that cannot decode *)

(** Ticks taken before the first wake-up that takes the stop case. *)
Fixpoint ticks_taken (wakes : list manager.wake) : nat :=
  match wakes with
  | [] => 0%nat
  | w :: wakes => if manager.takes_stop w then 0%nat else Datatypes.S (ticks_taken wakes)
  end.

(** The part of a trace after the [select] that takes the stop case. *)
Fixpoint after_stop (trace : list manager.event) : option (list manager.event) :=
  match trace with
  | [] => None
  | manager.Select w :: rest =>
      if manager.takes_stop w then Some rest else after_stop rest
  | _ :: rest => after_stop rest
  end.

(** The part of a trace before the first [select]. *)
Fixpoint before_select (trace : list manager.event) : list manager.event :=
  match trace with
  | [] => []
  | manager.Select _ :: _ => []
  | e :: rest => e :: before_select rest
  end.

(** [GC] of the in-memory store as the scheduler calls it; a panic would
    leave the store as it is. *)
Definition memory_GC (now : time) (s : memoryStore) : memoryStore * option error :=
  default (s, None) (memoryStore.GC Background now s).

(** The hex SHA-1 digest, as far as the key "k" needs it. *)
Definition sha1_hex_k (key : string) : string :=
  "13fbd79c3d390e5d6585a21e11ff5ec1970cff0c".

(** A store whose decoder fails on empty input with [io.EOF], as the gob
    decoder of [FileIniter] does, and a cache directory whose file for the
    key "k" is empty. *)
Definition eof_store : fileStore.t :=
  {| fileStore.nowFunc := 0;
     fileStore.rootDir := "cache";
     fileStore.decoder := λ binary,
       match binary with
       | [] => (fileStore.PtrFileItem
                  (Some {| fileStore.Value := Nil; fileStore.ExpiredAt := 0 |}),
                Some (ErrMsg "EOF"))
       | _ => (fileStore.Other (Str "payload"), None)
       end |}.

Definition eof_disk : gmap string fileStore.node :=
  {[ fileStore.filename sha1_hex_k eof_store "k" := fileStore.File [] ]}.

(** ** The file system under the file store

    The packages [path/filepath] and [os] as far as file.go calls them,
    over a file system that is a finite map from clean slash-separated paths
    to regular files and directories.  The working directory "." and the
    root "/" always exist; permissions, links and failing devices are left
    out, so a call fails only for the shape of the tree. *)

Module filepath.

Definition IsPathSeparator (c : Ascii.ascii) : bool := Ascii.eqb c "/"%char.

(** Drops the leading elements that satisfy [f]: the backward scans of
    [Dir] and [os.MkdirAll], on the reversed path. *)
Fixpoint skip (f : Ascii.ascii → bool) (l : list Ascii.ascii) : list Ascii.ascii :=
  match l with
  | [] => []
  | c :: rest => if f c then skip f rest else l
  end.

(** [Dir]: [i := len(path) - 1; for i >= 0 && !IsPathSeparator(path[i])
    { i-- }; Clean(path[:i+1])].  On a clean path [Clean] only drops the
    separator that ends [path[:i+1]], unless that is all of it. *)
Definition Dir (path : string) : string :=
  match length (skip (λ c, negb (IsPathSeparator c))
                  (reverse (String.list_ascii_of_string path))) with
  | O => "."
  | 1%nat => "/"
  | Datatypes.S i => String.substring 0 i path
  end.

End filepath.

Module os.

(** [os.Stat]. *)
Definition Stat (fs : gmap string fileStore.node) (path : string) : option fileStore.node :=
  if decide (path = "." ∨ path = "/") then Some fileStore.Dir else fs !! path.

(** [os.Mkdir]: the path must be new and the directory that is to hold it
    must exist. *)
Definition Mkdir (fs : gmap string fileStore.node) (path : string) : gmap string fileStore.node * option error :=
  match Stat fs path with
  | Some _ => (fs, Some (ErrMsg "mkdir: file exists"))
  | None =>
      match Stat fs (filepath.Dir path) with
      | Some fileStore.Dir => (<[path := fileStore.Dir]> fs, None)
      | Some (fileStore.File _) => (fs, Some (ErrMsg "mkdir: not a directory"))
      | None => (fs, Some (ErrMsg "mkdir: no such file or directory"))
      end
  end.

(** [os.MkdirAll]: nothing to do when the path is a directory and an error
    when it is a file; otherwise [i] skips the trailing separators, [j]
    scans backward over the last element, the parent [path[:j-1]] is made
    first when [j > 1], and [Mkdir] is called, whose error does not count if
    the directory exists after all. *)
Fixpoint MkdirAll_loop (fuel : nat) (fs : gmap string fileStore.node) (path : string)
  : option (gmap string fileStore.node * option error) :=
  match fuel with
  | O => None
  | Datatypes.S fuel =>
      match Stat fs path with
      | Some fileStore.Dir => Some (fs, None)
      | Some (fileStore.File _) => Some (fs, Some (ErrMsg "mkdir: not a directory"))
      | None =>
          let j := length (filepath.skip (λ c, negb (filepath.IsPathSeparator c))
                             (filepath.skip filepath.IsPathSeparator
                                (reverse (String.list_ascii_of_string path)))) in
          '(fs1, err) ← (if decide (1 < j)%nat
                         then MkdirAll_loop fuel fs (String.substring 0 (j - 1) path)
                         else Some (fs, None));
          match err with
          | Some err => Some (fs1, Some err)
          | None =>
              let '(fs2, err) := Mkdir fs1 path in
              match err with
              | None => Some (fs2, None)
              | Some err =>
                  match Stat fs2 path with
                  | Some fileStore.Dir => Some (fs2, None)
                  | _ => Some (fs2, Some err)
                  end
              end
          end
      end
  end.

Definition MkdirAll (fs : gmap string fileStore.node) (path : string) : option (gmap string fileStore.node * option error) :=
  MkdirAll_loop (Datatypes.S (String.length path)) fs path.

(** [os.WriteFile]: creates the file or truncates it; it cannot open a
    directory, nor a name in a directory that does not exist. *)
Definition WriteFile (fs : gmap string fileStore.node) (name : string) (data : list Byte.byte)
  : gmap string fileStore.node * option error :=
  match Stat fs name with
  | Some fileStore.Dir => (fs, Some (ErrMsg "open: is a directory"))
  | _ =>
      match Stat fs (filepath.Dir name) with
      | Some fileStore.Dir => (<[name := fileStore.File data]> fs, None)
      | Some (fileStore.File _) => (fs, Some (ErrMsg "open: not a directory"))
      | None => (fs, Some (ErrMsg "open: no such file or directory"))
      end
  end.

(** The directory has an entry below it. *)
Definition has_entries (fs : gmap string fileStore.node) (dir : string) : bool :=
  existsb (λ kv, String.prefix (dir +:+ "/") kv.1) (map_to_list fs).

(** [os.Remove]: removes a file or an empty directory. *)
Definition Remove (fs : gmap string fileStore.node) (name : string) : gmap string fileStore.node * option error :=
  match fs !! name with
  | None => (fs, Some (ErrMsg "remove: no such file or directory"))
  | Some (fileStore.File _) => (delete name fs, None)
  | Some fileStore.Dir =>
      if has_entries fs name then (fs, Some (ErrMsg "remove: directory not empty"))
      else (delete name fs, None)
  end.




End os.

(** ** file.go: writing, deleting and reclaiming

    The methods take the file system as an argument and return the one they
    leave.  The encoder, which [fileStore.t] leaves out, is an argument of
    [Set]. *)

(** [Encoder], at the one type [Set] calls it with. *)
Definition Encoder := fileStore.fileItem → list Byte.byte * option error.

#[global] Instance error_eq_dec : EqDecision error.
Proof. solve_decision. Defined.

(** The store with its clock at another reading. *)
Definition at_time (s : fileStore.t) (now : time) : fileStore.t :=
  {| fileStore.nowFunc := now;
     fileStore.rootDir := fileStore.rootDir s;
     fileStore.decoder := fileStore.decoder s |}.

(** [Set]: encodes the value with its expiration ([UTC] changes the
    location of the instant, not the instant), makes the directories of the
    file name and writes the file. *)
Definition fileStore_Set (sha1_hex : string → string) (encoder : Encoder)
    (s : fileStore.t) (fs : gmap string fileStore.node) (key : string) (value : any) (lifetime : Duration)
  : option (gmap string fileStore.node * option error) :=
  let '(binary, err) :=
    encoder {| fileStore.Value := value;
               fileStore.ExpiredAt := Add (fileStore.nowFunc s) lifetime |} in
  match err with
  | Some err => Some (fs, Some (ErrWrap err "encode"))
  | None =>
      let filename := fileStore.filename sha1_hex s key in
      '(fs1, err) ← os.MkdirAll fs (filepath.Dir filename);
      match err with
      | Some err => Some (fs1, Some (ErrWrap err "create parent directories"))
      | None =>
          let '(fs2, err) := os.WriteFile fs1 filename binary in
          match err with
          | Some err => Some (fs2, Some (ErrWrap err "write file"))
          | None => Some (fs2, None)
          end
      end
  end.

(** [Delete]: [os.Remove(s.filename(key))]. *)
Definition fileStore_Delete (sha1_hex : string → string) (s : fileStore.t)
    (fs : gmap string fileStore.node) (key : string) : gmap string fileStore.node * option error :=
  os.Remove fs (fileStore.filename sha1_hex s key).


(** What [filepath.WalkDir] hands to its callback at one entry: the path,
    [d.IsDir()] and the error of reaching or listing the entry. *)
Record visit := {
  v_path : string;
  v_isDir : bool;
  v_err : option error
}.

(** The error of a context that is done ([context.Canceled] stands for
    [context.DeadlineExceeded] as well), and [ctx.Err()] at the n-th reading
    of the context. *)
Definition Canceled : error := ErrMsg "context canceled".

Definition ctx_Err (ctx : Context) (n : nat) : option error :=
  if ctx n then Some Canceled else None.

(** The callback of [GC]: it returns [ctx.Err()] when the context is done
    and the error it is handed, skips directories, returns the error of
    [read], leaves a file that expires after the current instant and
    removes any other.  [None] is the nil dereference of [item]. *)
Definition GC_visit (s : fileStore.t) (ctx : Context) (polls : nat) (fs : gmap string fileStore.node)
    (v : visit) : option (gmap string fileStore.node * option error) :=
  if ctx polls then Some (fs, Some Canceled)
  else
    match v_err v with
    | Some err => Some (fs, Some err)
    | None =>
        if v_isDir v then Some (fs, None)
        else
          let '(item, err) := fileStore.read s fs (v_path v) in
          match err with
          | Some err => Some (fs, Some err)
          | None =>
              item ← item;
              if After (fileStore.ExpiredAt item) (fileStore.nowFunc s)
              then Some (fs, None)
              else Some (os.Remove fs (v_path v))
          end
    end.

(** [filepath.WalkDir] from the callback's side: [walk] is the sequence of
    entries below [rootDir] that the traversal presents, and the callback
    runs on them in order until it returns an error.  The result carries
    the number of polls of the context made so far. *)
Fixpoint WalkDir (fn : nat → gmap string fileStore.node → visit → option (gmap string fileStore.node * option error))
    (polls : nat) (fs : gmap string fileStore.node) (walk : list visit)
  : option (gmap string fileStore.node * option error * nat) :=
  match walk with
  | [] => Some (fs, None, polls)
  | v :: walk =>
      '(fs', err) ← fn polls fs v;
      match err with
      | Some err => Some (fs', Some err, Datatypes.S polls)
      | None => WalkDir fn (Datatypes.S polls) fs' walk
      end
  end.

(** [GC]: the walk, whose error is dropped when it is [ctx.Err()]. *)
Definition fileStore_GC (s : fileStore.t) (ctx : Context) (fs : gmap string fileStore.node)
    (walk : list visit) : option (gmap string fileStore.node * option error) :=
  '(fs', err, polls) ← WalkDir (GC_visit s ctx) 0 fs walk;
  match err with
  | Some err =>
      if decide (Some err = ctx_Err ctx polls) then Some (fs', None)
      else Some (fs', Some err)
  | None => Some (fs', None)
  end.

(** The content of the regular file at a path, if there is one. *)
Definition file_at (fs : gmap string fileStore.node) (path : string) : option (list Byte.byte) :=
  match fs !! path with
  | Some (fileStore.File content) => Some content
  | _ => None
  end.

(** The file at the path holds an item that [GC] reclaims. *)
Definition reclaimable (s : fileStore.t) (fs : gmap string fileStore.node) (path : string) : bool :=
  match fileStore.read s fs path with
  | (Some item, None) => negb (After (fileStore.ExpiredAt item) (fileStore.nowFunc s))
  | _ => false
  end.

(** The paths a walk presents as files. *)
Definition files (walk : list visit) : list string :=
  v_path <$> filter (λ v, v_isDir v = false) walk.

(** [fs'] is [fs] with directories added at paths that were free. *)
Definition grows (fs fs' : gmap string fileStore.node) : Prop :=
  ∀ p, fs' !! p = fs !! p ∨ (fs !! p = None ∧ fs' !! p = Some fileStore.Dir).

(** [fs'] is [fs] without some of the files that hold an item expired at
    the store's clock. *)
Definition reclaimed (s : fileStore.t) (fs fs' : gmap string fileStore.node) : Prop :=
  ∀ p, fs' !! p = fs !! p ∨
       (fs' !! p = None ∧
        ∃ content item, fs !! p = Some (fileStore.File content) ∧
          fileStore.decoder s content = (fileStore.PtrFileItem (Some item), None) ∧
          fileStore.ExpiredAt item ≤ fileStore.nowFunc s).

(** The walk lists without error, and each file it presents holds a
    readable item. *)
Definition readable (s : fileStore.t) (fs : gmap string fileStore.node) (walk : list visit) : Prop :=
  Forall (λ v, v_err v = None ∧
               (v_isDir v = false →
                ∃ item, fileStore.read s fs (v_path v) = (Some item, None))) walk.

(** ** A store for the examples

    The hex SHA-1 digest on the keys used below, and a codec for string
    values whose expiration fits a byte: the expiration, then the bytes of
    the string.  On empty input the decoder fails with [io.EOF] and hands
    back the pointer to the zero item, as the decoder of [FileIniter]
    does. *)

Definition sha1_hex_of (key : string) : string :=
  if decide (key = "k") then "13fbd79c3d390e5d6585a21e11ff5ec1970cff0c"
  else if decide (key = "a") then "86f7e437faa5a7fce15d1ddcb9eaeaea377667b8"
  else if decide (key = "1") then "356a192b7913b04c54574d18c28d46e6395428ab"
  else if decide (key = "2") then "da4b9237bacccdf19c0760cab7aec4a8359010b0"
  else if decide (key = "3") then "77de68daecd823babbb58edb1c8e14d7106e83bb"
  else "da39a3ee5e6b4b0d3255bfef95601890afd80709".

Definition byte_encoder : Encoder := λ item,
  match fileStore.Value item, Byte.of_N (Z.to_N (fileStore.ExpiredAt item)) with
  | Str v, Some b =>
      if 0 <=? fileStore.ExpiredAt item then (b :: String.list_byte_of_string v, None)
      else ([], Some (ErrMsg "encode: expiration out of range"))
  | Str _, None => ([], Some (ErrMsg "encode: expiration out of range"))
  | _, _ => ([], Some (ErrMsg "encode: type not registered"))
  end.

Definition byte_decoder : fileStore.Decoder := λ binary,
  match binary with
  | [] => (fileStore.PtrFileItem
             (Some {| fileStore.Value := Nil; fileStore.ExpiredAt := 0 |}),
           Some (ErrMsg "EOF"))
  | b :: rest =>
      (fileStore.PtrFileItem
         (Some {| fileStore.Value := Str (String.string_of_list_byte rest);
                  fileStore.ExpiredAt := Z.of_N (Byte.to_N b) |}),
       None)
  end.

Definition byte_store (now : time) : fileStore.t :=
  {| fileStore.nowFunc := now;
     fileStore.rootDir := "cache";
     fileStore.decoder := byte_decoder |}.

(** The cache directory after [Set] of the keys "1", "2" and "3" with the
    lifetimes 1, 2 and 3 at the instant 0, and the entries a walk of it
    presents. *)
Definition disk_123 : gmap string fileStore.node :=
  let set key lifetime fs :=
    default fs (fst <$> fileStore_Set sha1_hex_of byte_encoder (byte_store 0) fs key
                          (Str key) lifetime) in
  set "3" 3 (set "2" 2 (set "1" 1 ∅)).

Definition walk_123 : list visit :=
  [ {| v_path := "cache"; v_isDir := true; v_err := None |};
    {| v_path := "cache/3"; v_isDir := true; v_err := None |};
    {| v_path := "cache/3/5"; v_isDir := true; v_err := None |};
    {| v_path := "cache/3/5/356a192b7913b04c54574d18c28d46e6395428ab";
       v_isDir := false; v_err := None |};
    {| v_path := "cache/7"; v_isDir := true; v_err := None |};
    {| v_path := "cache/7/7"; v_isDir := true; v_err := None |};
    {| v_path := "cache/7/7/77de68daecd823babbb58edb1c8e14d7106e83bb";
       v_isDir := false; v_err := None |};
    {| v_path := "cache/d"; v_isDir := true; v_err := None |};
    {| v_path := "cache/d/a"; v_isDir := true; v_err := None |};
    {| v_path := "cache/d/a/da4b9237bacccdf19c0760cab7aec4a8359010b0";
       v_isDir := false; v_err := None |} ].

(** The cache directory after [Set] of the key "k" at the instant 2, and
    after [Set] of the key "a" at the instant 0. *)
Definition disk_k : gmap string fileStore.node :=
  default ∅ (fst <$> fileStore_Set sha1_hex_of byte_encoder (byte_store 2) ∅ "k"
                       (Str "v") 5).

Definition disk_a : gmap string fileStore.node :=
  default ∅ (fst <$> fileStore_Set sha1_hex_of byte_encoder (byte_store 0) ∅ "a"
                       (Str "x") 9).

(** The example directory with the file of the key "1" emptied. *)
Definition disk_123_torn : gmap string fileStore.node :=
  <["cache/3/5/356a192b7913b04c54574d18c28d46e6395428ab" := fileStore.File []]> disk_123.

(** A context that is done from its [n]-th poll on. *)
Definition done_from (n : nat) : Context := λ i, bool_decide (n ≤ i)%nat.

(** ** The scheduler's failure sink *)

(** The errors handed to [errFunc], in order. *)
Fixpoint reported (trace : list manager.event) : list error :=
  match trace with
  | [] => []
  | manager.CallErrFunc err :: rest => err :: reported rest
  | _ :: rest => reported rest
  end.

(** [n] calls of [GC] one after the other: the store they leave and their
    results in order. *)
Fixpoint GC_times {S : Type} (GC : S → S * option error) (n : nat) (store : S)
  : S * list (option error) :=
  match n with
  | O => (store, [])
  | Datatypes.S n =>
      let '(store, err) := GC store in
      let '(store', errs) := GC_times GC n store in
      (store', err :: errs)
  end.

(** [GC] of the in-memory store under a clock that moves between the
    scheduler's cycles: the state counts the calls made so far, and the
    [n]-th call reads [clock n]. *)
Definition timed_GC (clock : nat → time) (st : nat * memoryStore)
  : (nat * memoryStore) * option error :=
  let '(s', err) := memory_GC (clock st.1) st.2 in
  ((Datatypes.S st.1, s'), err).

(** The [GC] calls of the first [n] cycles under that clock, starting with
    the call number [i]. *)
Fixpoint GC_calls (clock : nat → time) (i n : nat) : list call :=
  match n with
  | O => []
  | Datatypes.S n => CallGC Background (clock i) :: GC_calls clock (Datatypes.S i) n
  end.

(** ** State predicates of the in-memory store *)

(** Expiration instant of the item in heap slot [k] (0 outside the slice). *)
Definition exp_at (s : memoryStore) (k : Z) : time :=
  default 0 (p ← slice_get (heap s) k; it ← objs s !! p; Some (item_expiredAt it)).

(** Every heap slot holds an allocated item whose [index] field is the
    slot's position. *)
Definition pos_ok (s : memoryStore) : Prop :=
  ∀ (i : nat) (p : loc), heap s !! i = Some p →
    ∃ it, objs s !! p = Some it ∧ item_index it = Z.of_nat i.

(** Every key of the index map points at an item of that key which sits in
    the heap slice. *)
Definition idx_ok (s : memoryStore) : Prop :=
  ∀ (k : string) (p : loc), index s !! k = Some p →
    p ∈ heap s ∧ ∃ it, objs s !! p = Some it ∧ item_key it = k.

(** The min-heap shape over a position-indexed family of instants. *)
Definition ordered (f : Z → Z) (n : Z) : Prop :=
  ∀ k, 0 < k < n → f (heap.parent k) ≤ f k.

Definition heap_ordered (s : memoryStore) : Prop :=
  ordered (exp_at s) (memoryStore.Len s).

(** Heap shape with position [i] left out: every edge that does not touch
    [i] is in order, and the parent of [i] is below the children of [i]. *)
Definition hole (f : Z → Z) (n i : Z) : Prop :=
  (∀ k, 0 < k < n → k ≠ i → heap.parent k ≠ i → f (heap.parent k) ≤ f k) ∧
  (0 < i → ∀ c, 0 < c < n → heap.parent c = i → f (heap.parent i) ≤ f c).

Definition below_ok (f : Z → Z) (n i : Z) : Prop :=
  ∀ c, 0 < c < n → heap.parent c = i → f i ≤ f c.

Definition above_ok (f : Z → Z) (i : Z) : Prop :=
  0 < i → f (heap.parent i) ≤ f i.

Definition swapf (f : Z → Z) (i j : Z) : Z → Z :=
  λ k, if decide (k = i) then f j else if decide (k = j) then f i else f k.

(** The fields of an item that no heap operation writes. *)
Definition imm (it : memoryItem) : string * any * time :=
  (item_key it, item_value it, item_expiredAt it).

Definition same_items (o o' : gmap loc memoryItem) : Prop :=
  ∀ p, imm <$> o' !! p = imm <$> o !! p.

(** What [Swap], [up] and [down] leave alone. *)
Record heap_rel (s s' : memoryStore) : Prop := {
  hr_index : index s' = index s;
  hr_perm : heap s' ≡ₚ heap s;
  hr_items : same_items (objs s) (objs s')
}.

(** What every method relies on and re-establishes under the lock. *)
Definition Inv (s : memoryStore) : Prop :=
  pos_ok s ∧ idx_ok s ∧ heap_ordered s.

(** The index map and the heap slice name the same items: every key of the
    map points into the heap, and every heap slot is the entry of its own key
    in the map. *)
Definition consistent (s : memoryStore) : Prop :=
  (∀ (k : string) (p : loc), index s !! k = Some p → p ∈ heap s) ∧
  (∀ p : loc, p ∈ heap s →
     ∃ it, objs s !! p = Some it ∧ index s !! item_key it = Some p).

(** * Proofs *)

(** ** Arithmetic of the implicit tree *)

Lemma parent_root : heap.parent 0 = 0.
Proof. reflexivity. Qed.

Lemma parent_div (k : Z) : 0 < k → heap.parent k = (k - 1) / 2.
Proof. intros Hk. unfold heap.parent. apply Z.quot_div_nonneg; lia. Qed.

Lemma parent_bounds (k : Z) : 0 < k → 0 ≤ heap.parent k < k.
Proof.
  intros Hk. rewrite parent_div by done.
  Z.to_euclidean_division_equations. lia.
Qed.

Lemma parent_children (c i : Z) :
  0 < c → heap.parent c = i ↔ c = 2 * i + 1 ∨ c = 2 * i + 2.
Proof.
  intros Hc. rewrite parent_div by done.
  Z.to_euclidean_division_equations. lia.
Qed.

(** The guard of [down] computed on 64-bit integers takes the branch the
    unbounded computation takes, for every position of a slice. *)
Lemma down_guard_wrap64 (i n : Z) :
  0 ≤ i < n → n < 2 ^ 63 →
  (n <=? wrap64 (2 * i + 1)) || (wrap64 (2 * i + 1) <? 0)
  = (n <=? 2 * i + 1) || (2 * i + 1 <? 0).
Proof.
  intros Hi Hn. unfold wrap64.
  destruct (decide (2 * i + 1 < 2 ^ 63)) as [Hs|Hs].
  - replace ((2 * i + 1 + 2 ^ 63) mod 2 ^ 64 - 2 ^ 63) with (2 * i + 1); [done|].
    rewrite Z.mod_small by lia. lia.
  - replace ((2 * i + 1 + 2 ^ 63) mod 2 ^ 64) with (2 * i + 1 + 2 ^ 63 - 2 ^ 64).
    + apply eq_true_iff_eq. rewrite !orb_true_iff, !Z.leb_le, !Z.ltb_lt. lia.
    + apply Z.mod_unique with 1; lia.
Qed.

(** ** The heap shape under the two sift steps *)

Lemma hole_closed (f : Z → Z) (n i : Z) :
  hole f n i → below_ok f n i → above_ok f i → ordered f n.
Proof.
  intros [Hrest _] Hbelow Habove k Hk.
  destruct (decide (k = i)) as [->|Hki]; [apply Habove; lia|].
  destruct (decide (heap.parent k = i)) as [Hp|Hp].
  - rewrite Hp. by apply Hbelow.
  - by apply Hrest.
Qed.

Lemma ordered_hole (f f' : Z → Z) (n i : Z) :
  ordered f n → (∀ k, 0 ≤ k < n → k ≠ i → f' k = f k) → hole f' n i.
Proof.
  intros Hord Hsame. split.
  - intros k Hk Hki Hpi. pose proof (parent_bounds k ltac:(lia)).
    rewrite !Hsame by lia. by apply Hord.
  - intros Hi c Hc Hpc.
    pose proof (parent_bounds i Hi) as Hbi.
    pose proof (parent_bounds c ltac:(lia)) as Hbc.
    rewrite !Hsame by lia.
    trans (f i); [apply Hord; lia|].
    rewrite <- Hpc. apply Hord; lia.
Qed.

Lemma hole_last (f : Z → Z) (n : Z) :
  0 ≤ n → ordered f n → hole f (n + 1) n ∧ below_ok f (n + 1) n.
Proof.
  intros Hn Hord. split; [split|].
  - intros k Hk Hkn _. apply Hord. lia.
  - intros _ c Hc Hpc. pose proof (parent_bounds c ltac:(lia)). lia.
  - intros c Hc Hpc. pose proof (parent_bounds c ltac:(lia)). lia.
Qed.

Lemma ordered_weaken (f : Z → Z) (n m : Z) : ordered f n → m ≤ n → ordered f m.
Proof. intros Hord Hm k Hk. apply Hord. lia. Qed.

Lemma ordered_ext (f g : Z → Z) (n : Z) :
  ordered f n → (∀ k, 0 ≤ k < n → g k = f k) → ordered g n.
Proof.
  intros Hord Hext k Hk. pose proof (parent_bounds k ltac:(lia)).
  rewrite !Hext by lia. by apply Hord.
Qed.

Lemma ordered_root_min (f : Z → Z) (n : Z) :
  ordered f n → ∀ k, 0 ≤ k < n → f 0 ≤ f k.
Proof.
  intros Hord k Hk.
  assert (∀ m : nat, ∀ k, 0 ≤ k < n → k ≤ Z.of_nat m → f 0 ≤ f k) as Hind.
  { clear k Hk. induction m as [|m IH]; intros k Hk Hm.
    - by replace k with 0 by lia.
    - destruct (decide (k = 0)) as [->|Hk0]; [done|].
      pose proof (parent_bounds k ltac:(lia)).
      trans (f (heap.parent k)); [apply IH; lia|apply Hord; lia]. }
  apply (Hind (Z.to_nat k)); lia.
Qed.

Lemma up_step (f f' : Z → Z) (n j : Z) :
  0 < j < n → hole f n j → below_ok f n j → f j < f (heap.parent j) →
  (∀ k, f' k = swapf f (heap.parent j) j k) →
  hole f' n (heap.parent j) ∧ below_ok f' n (heap.parent j).
Proof.
  intros Hj [Hrest Hgrand] Hbelow Hlt Hf'.
  pose proof (parent_bounds j ltac:(lia)) as Hpj.
  set (i := heap.parent j) in *.
  assert (∀ k, k ≠ i → k ≠ j → f' k = f k) as Hother.
  { intros k ??. rewrite Hf'. unfold swapf. by rewrite !decide_False. }
  assert (f' i = f j) as Hfi by (rewrite Hf'; unfold swapf; by rewrite decide_True).
  assert (f' j = f i) as Hfj.
  { rewrite Hf'. unfold swapf. rewrite decide_False by lia. by rewrite decide_True. }
  split; [split|].
  - intros k Hk Hki Hpki.
    pose proof (parent_bounds k ltac:(lia)) as Hpk.
    destruct (decide (k = j)) as [->|Hkj]; [done|].
    destruct (decide (heap.parent k = j)) as [Hpkj|Hpkj].
    + rewrite Hpkj, Hfj, Hother by lia. apply Hgrand; [lia|done..].
    + rewrite !Hother by done. by apply Hrest.
  - intros Hi c Hc Hpc.
    pose proof (parent_bounds i Hi) as Hpi.
    pose proof (parent_bounds c ltac:(lia)) as Hbc.
    rewrite (Hother (heap.parent i)) by lia.
    assert (f (heap.parent i) ≤ f i) as Hedge by (apply Hrest; lia).
    destruct (decide (c = j)) as [->|Hcj]; [by rewrite Hfj|].
    rewrite Hother by lia.
    trans (f i); [done|]. rewrite <- Hpc. apply Hrest; lia.
  - intros c Hc Hpc. rewrite Hfi.
    pose proof (parent_bounds c ltac:(lia)) as Hbc.
    destruct (decide (c = j)) as [->|Hcj]; [rewrite Hfj; lia|].
    rewrite Hother by lia.
    trans (f i); [lia|]. rewrite <- Hpc. apply Hrest; lia.
Qed.

Lemma down_step (f f' : Z → Z) (n i j : Z) :
  0 ≤ i → 0 < j < n → heap.parent j = i → hole f n i →
  (∀ c, 0 < c < n → heap.parent c = i → f j ≤ f c) → f j < f i →
  (∀ k, f' k = swapf f i j k) →
  hole f' n j ∧ above_ok f' j.
Proof.
  intros Hi Hj Hpj [Hrest Hgrand] Hmin Hlt Hf'.
  pose proof (parent_bounds j ltac:(lia)) as Hbj.
  assert (∀ k, k ≠ i → k ≠ j → f' k = f k) as Hother.
  { intros k ??. rewrite Hf'. unfold swapf. by rewrite !decide_False. }
  assert (f' i = f j) as Hfi by (rewrite Hf'; unfold swapf; by rewrite decide_True).
  assert (f' j = f i) as Hfj.
  { rewrite Hf'. unfold swapf. rewrite decide_False by lia. by rewrite decide_True. }
  split; [split|].
  - intros k Hk Hkj Hpkj.
    pose proof (parent_bounds k ltac:(lia)) as Hpk.
    destruct (decide (k = i)) as [->|Hki].
    + rewrite Hfi, Hother by lia. apply Hgrand; [lia|done..].
    + destruct (decide (heap.parent k = i)) as [Hpki|Hpki].
      * rewrite Hpki, Hfi, Hother by done. by apply Hmin.
      * rewrite !Hother by done. by apply Hrest.
  - intros _ c Hc Hpc.
    pose proof (parent_bounds c ltac:(lia)) as Hbc.
    rewrite Hpj, Hfi, Hother by lia.
    rewrite <- Hpc. apply Hrest; lia.
  - intros _. rewrite Hpj, Hfi, Hfj. lia.
Qed.

(** ** Slices and the object store *)

Lemma slice_get_lookup {A} (l : list A) (i : Z) :
  0 ≤ i → slice_get l i = l !! Z.to_nat i.
Proof. intros Hi. unfold slice_get. by rewrite decide_True. Qed.

Lemma slice_get_of_nat {A} (l : list A) (a : nat) :
  slice_get l (Z.of_nat a) = l !! a.
Proof. rewrite slice_get_lookup by lia. by rewrite Nat2Z.id. Qed.

Lemma slice_get_Some {A} (l : list A) (i : Z) (x : A) :
  slice_get l i = Some x → 0 ≤ i < Z.of_nat (length l).
Proof.
  unfold slice_get. case_decide; [|done].
  intros Hl%lookup_lt_Some. lia.
Qed.

Lemma slice_get_None {A} (l : list A) (i : Z) :
  ¬ 0 ≤ i < Z.of_nat (length l) → slice_get l i = None.
Proof.
  intros Hi. unfold slice_get. case_decide; [|done].
  apply lookup_ge_None. lia.
Qed.

Lemma slice_get_is_Some {A} (l : list A) (i : Z) :
  0 ≤ i < Z.of_nat (length l) → is_Some (slice_get l i).
Proof.
  intros Hi. rewrite slice_get_lookup by lia. apply lookup_lt_is_Some. lia.
Qed.

Lemma slice_set_Some {A} (l : list A) (i : Z) (x : A) :
  0 ≤ i < Z.of_nat (length l) → slice_set l i x = Some (<[Z.to_nat i := x]> l).
Proof. intros Hi. unfold slice_set. by rewrite decide_True. Qed.

Lemma set_index_Some (o : gmap loc memoryItem) (p : loc) (i : Z) (it : memoryItem) :
  o !! p = Some it →
  set_index o p i =
    Some (<[p := {| item_key := item_key it; item_value := item_value it;
                     item_expiredAt := item_expiredAt it; item_index := i |}]> o).
Proof. intros Hp. unfold set_index. by rewrite Hp. Qed.

Lemma same_items_refl (o : gmap loc memoryItem) : same_items o o.
Proof. done. Qed.

Lemma same_items_trans (o1 o2 o3 : gmap loc memoryItem) :
  same_items o1 o2 → same_items o2 o3 → same_items o1 o3.
Proof. intros H12 H23 p. by rewrite H23, H12. Qed.

Lemma same_items_insert (o : gmap loc memoryItem) (p : loc) (it it' : memoryItem) :
  o !! p = Some it → imm it' = imm it → same_items o (<[p := it']> o).
Proof.
  intros Hp Himm q. destruct (decide (q = p)) as [->|Hq].
  - rewrite lookup_insert_eq, Hp. simpl. by rewrite Himm.
  - by rewrite lookup_insert_ne.
Qed.

Lemma same_items_lookup (o o' : gmap loc memoryItem) (p : loc) (it : memoryItem) :
  same_items o o' → o !! p = Some it →
  ∃ it', o' !! p = Some it' ∧ imm it' = imm it.
Proof.
  intros Hsame Hp. specialize (Hsame p). rewrite Hp in Hsame.
  destruct (o' !! p) as [it'|]; [|done].
  exists it'. split; [done|]. simpl in Hsame. congruence.
Qed.

Lemma same_items_lookup_inv (o o' : gmap loc memoryItem) (p : loc) (it' : memoryItem) :
  same_items o o' → o' !! p = Some it' →
  ∃ it, o !! p = Some it ∧ imm it' = imm it.
Proof.
  intros Hsame Hp. specialize (Hsame p). rewrite Hp in Hsame.
  destruct (o !! p) as [it|]; [|done].
  exists it. split; [done|]. simpl in Hsame. congruence.
Qed.

Lemma heap_rel_refl (s : memoryStore) : heap_rel s s.
Proof. by split. Qed.

Lemma heap_rel_trans (s1 s2 s3 : memoryStore) :
  heap_rel s1 s2 → heap_rel s2 s3 → heap_rel s1 s3.
Proof.
  intros [Hi1 Hp1 Ho1] [Hi2 Hp2 Ho2]. split.
  - by rewrite Hi2.
  - by rewrite Hp2.
  - by eapply same_items_trans.
Qed.

Lemma heap_rel_Len (s s' : memoryStore) :
  heap_rel s s' → memoryStore.Len s' = memoryStore.Len s.
Proof. intros [_ Hp _]. unfold memoryStore.Len. by rewrite Hp. Qed.

(** ** Slots of a well-positioned store *)

Lemma pos_ok_slot (s : memoryStore) (k : Z) :
  pos_ok s → 0 ≤ k < memoryStore.Len s →
  ∃ p it, slice_get (heap s) k = Some p ∧ objs s !! p = Some it ∧
          item_index it = k ∧ exp_at s k = item_expiredAt it.
Proof.
  intros Hpos Hk. unfold memoryStore.Len in Hk.
  destruct (slice_get_is_Some (heap s) k Hk) as [p Hp].
  pose proof Hp as Hp'. rewrite slice_get_lookup in Hp' by lia.
  destruct (Hpos _ _ Hp') as (it & Hit & Hidx).
  exists p, it. repeat split; [done..|lia|].
  unfold exp_at. rewrite Hp. simpl. by rewrite Hit.
Qed.

Lemma pos_ok_inj (s : memoryStore) (a b : nat) (p : loc) :
  pos_ok s → heap s !! a = Some p → heap s !! b = Some p → a = b.
Proof.
  intros Hpos Ha Hb.
  destruct (Hpos _ _ Ha) as (it & Hit & Hia).
  destruct (Hpos _ _ Hb) as (it' & Hit' & Hib).
  simplify_eq. lia.
Qed.

Lemma pos_ok_NoDup (s : memoryStore) : pos_ok s → NoDup (heap s).
Proof. intros Hpos. apply NoDup_alt. intros a b p. by apply pos_ok_inj. Qed.

Lemma exp_at_transport (s s' : memoryStore) (k k' : Z) :
  same_items (objs s) (objs s') →
  slice_get (heap s') k = slice_get (heap s) k' →
  exp_at s' k = exp_at s k'.
Proof.
  intros Hsame Hk. unfold exp_at. rewrite Hk.
  destruct (slice_get (heap s) k') as [p|]; [simpl|done].
  specialize (Hsame p).
  destruct (objs s' !! p) as [it'|], (objs s !! p) as [it|]; simplify_eq/=; [|done].
  unfold imm in Hsame. by simplify_eq.
Qed.

Lemma Less_spec (s : memoryStore) (i j : Z) :
  pos_ok s → 0 ≤ i < memoryStore.Len s → 0 ≤ j < memoryStore.Len s →
  memoryStore.Less s i j = Some (exp_at s i <? exp_at s j).
Proof.
  intros Hpos Hi Hj.
  destruct (pos_ok_slot s i Hpos Hi) as (pi & a & Hpi & Ha & _ & ->).
  destruct (pos_ok_slot s j Hpos Hj) as (pj & b & Hpj & Hb & _ & ->).
  unfold memoryStore.Less. rewrite Hpi, Hpj. simpl. rewrite Ha, Hb. done.
Qed.

Lemma Swap_spec (s : memoryStore) (i j : Z) :
  pos_ok s → 0 ≤ i < memoryStore.Len s → 0 ≤ j < memoryStore.Len s → i ≠ j →
  ∃ s', memoryStore.Swap s i j = Some s' ∧ pos_ok s' ∧ heap_rel s s' ∧
    slice_get (heap s') i = slice_get (heap s) j ∧
    slice_get (heap s') j = slice_get (heap s) i ∧
    (∀ k, k ≠ i → k ≠ j → slice_get (heap s') k = slice_get (heap s) k).
Proof.
  intros Hpos Hi Hj Hij.
  destruct (pos_ok_slot s i Hpos Hi) as (pi & ita & Hpi & Ha & Hia & _).
  destruct (pos_ok_slot s j Hpos Hj) as (pj & itb & Hpj & Hb & Hib & _).
  unfold memoryStore.Len in Hi, Hj.
  pose proof Hpi as Hla. rewrite slice_get_lookup in Hla by lia.
  pose proof Hpj as Hlb. rewrite slice_get_lookup in Hlb by lia.
  set (a := Z.to_nat i) in *. set (b := Z.to_nat j) in *.
  assert (a ≠ b) as Hab by (unfold a, b; lia).
  assert (pi ≠ pj) as Hpij.
  { intros ->. exact (Hab (pos_ok_inj s a b _ Hpos Hla Hlb)). }
  set (h2 := <[b := pi]> (<[a := pj]> (heap s))).
  assert (h2 !! a = Some pj) as Hh2a.
  { unfold h2. rewrite list_lookup_insert_ne by done.
    apply list_lookup_insert_eq. unfold a. lia. }
  assert (h2 !! b = Some pi) as Hh2b.
  { unfold h2. apply list_lookup_insert_eq. rewrite length_insert. unfold b. lia. }
  assert (∀ c, c ≠ a → c ≠ b → h2 !! c = heap s !! c) as Hh2c.
  { intros c ??. unfold h2. by rewrite !list_lookup_insert_ne. }
  assert (slice_get h2 i = Some pj) as Hg2a by (by rewrite slice_get_lookup by lia).
  assert (slice_get h2 j = Some pi) as Hg2b by (by rewrite slice_get_lookup by lia).
  set (itb' := {| item_key := item_key itb; item_value := item_value itb;
                  item_expiredAt := item_expiredAt itb; item_index := i |}).
  set (ita' := {| item_key := item_key ita; item_value := item_value ita;
                  item_expiredAt := item_expiredAt ita; item_index := j |}).
  set (o1 := <[pj := itb']> (objs s)).
  set (o2 := <[pi := ita']> o1).
  exists {| objs := o2; heap := h2; index := index s |}.
  split; [|split; [|split; [|split; [|split]]]]; simpl.
  - unfold memoryStore.Swap. rewrite Hpi, Hpj. simpl.
    rewrite slice_set_Some by lia. simpl.
    rewrite slice_set_Some by (rewrite length_insert; lia). simpl.
    change (<[Z.to_nat j:=pi]> (<[Z.to_nat i:=pj]> (heap s))) with h2.
    rewrite Hg2a. simpl. rewrite (set_index_Some _ _ _ _ Hb). simpl.
    rewrite Hg2b. simpl.
    rewrite (set_index_Some _ pi j ita); [done|].
    by rewrite lookup_insert_ne.
  - intros c p Hc. simpl in *.
    destruct (decide (c = b)) as [->|Hcb].
    { rewrite Hh2b in Hc. simplify_eq. exists ita'. split.
      - unfold o2. apply lookup_insert_eq.
      - simpl. unfold b. lia. }
    destruct (decide (c = a)) as [->|Hca].
    { rewrite Hh2a in Hc. simplify_eq. exists itb'. split.
      - unfold o2, o1. rewrite lookup_insert_ne by done. apply lookup_insert_eq.
      - simpl. unfold a. lia. }
    rewrite Hh2c in Hc by done.
    destruct (Hpos _ _ Hc) as (it & Hit & Hidx).
    exists it. split; [|done].
    unfold o2, o1. rewrite !lookup_insert_ne; [done|..].
    + intros <-. exact (Hcb (pos_ok_inj s c b _ Hpos Hc Hlb)).
    + intros <-. exact (Hca (pos_ok_inj s c a _ Hpos Hc Hla)).
  - split; simpl; [done| |].
    + apply NoDup_Permutation.
      * apply NoDup_alt. intros c d p Hc Hd.
        assert (∀ e q, h2 !! e = Some q →
                  heap s !! (if decide (e = a) then b else if decide (e = b) then a else e)
                  = Some q) as Hback.
        { intros e q He. repeat case_decide; simplify_eq; [congruence..|].
          by rewrite <- Hh2c. }
        pose proof (pos_ok_inj s _ _ p Hpos (Hback _ _ Hc) (Hback _ _ Hd)).
        repeat case_decide; simplify_eq; done.
      * by apply pos_ok_NoDup.
      * intros p. rewrite !list_elem_of_lookup. split; intros [c Hc].
        -- destruct (decide (c = a)) as [->|?]; [exists b; congruence|].
           destruct (decide (c = b)) as [->|?]; [exists a; congruence|].
           exists c. by rewrite <- Hh2c.
        -- destruct (decide (c = a)) as [->|?]; [exists b; congruence|].
           destruct (decide (c = b)) as [->|?]; [exists a; congruence|].
           exists c. by rewrite Hh2c.
    + apply same_items_trans with o1.
      * by apply same_items_insert with itb.
      * apply same_items_insert with ita; [|done].
        unfold o1. by rewrite lookup_insert_ne.
  - by rewrite Hg2a.
  - by rewrite Hg2b.
  - intros k Hki Hkj. unfold slice_get. case_decide; [|done].
    apply Hh2c; unfold a, b; lia.
Qed.

Lemma Swap_exp (s s' : memoryStore) (i j : Z) :
  heap_rel s s' →
  slice_get (heap s') i = slice_get (heap s) j →
  slice_get (heap s') j = slice_get (heap s) i →
  (∀ k, k ≠ i → k ≠ j → slice_get (heap s') k = slice_get (heap s) k) →
  ∀ k, exp_at s' k = swapf (exp_at s) i j k.
Proof.
  intros [_ _ Hsame] Hi Hj Hother k. unfold swapf.
  repeat case_decide; subst; apply exp_at_transport; auto.
Qed.

(** ** [up] and [down] on a well-positioned store *)

Lemma up_loop_spec (fuel : nat) (s : memoryStore) (j : Z) :
  pos_ok s → 0 ≤ j < memoryStore.Len s → (Z.to_nat j < fuel)%nat →
  ∃ s', heap.up_loop fuel s j = Some s' ∧ pos_ok s' ∧ heap_rel s s' ∧
    (∀ k, j < k → slice_get (heap s') k = slice_get (heap s) k) ∧
    (∀ n, j < n ≤ memoryStore.Len s →
       hole (exp_at s) n j → below_ok (exp_at s) n j → ordered (exp_at s') n).
Proof.
  revert s j. induction fuel as [|fuel IH]; intros s j Hpos Hj Hfuel; [lia|].
  simpl. case_decide as Hroot.
  { exists s. split_and!; [done|done|apply heap_rel_refl|done|].
    intros n Hn Hhole Hbelow. apply (hole_closed _ _ j); [done..|].
    intros Hj0. pose proof (parent_bounds j Hj0). lia. }
  assert (0 < j) as Hj0.
  { destruct (decide (j = 0)) as [->|]; [done|lia]. }
  pose proof (parent_bounds j Hj0) as Hpj.
  rewrite (Less_spec s j (heap.parent j)) by (done || lia). simpl.
  destruct (exp_at s j <? exp_at s (heap.parent j)) eqn:Hlt; simpl.
  - apply Z.ltb_lt in Hlt.
    destruct (Swap_spec s (heap.parent j) j) as (s1 & -> & Hpos1 & Hrel1 & Hsi & Hsj & Hso);
      [done|lia|lia|lia|]. simpl.
    pose proof (heap_rel_Len _ _ Hrel1) as Hlen1.
    destruct (IH s1 (heap.parent j)) as (s' & -> & Hpos' & Hrel' & Hframe & Hord);
      [done|lia|lia|].
    exists s'. split_and!; [done|done|by eapply heap_rel_trans| |].
    + intros k Hk. rewrite Hframe by lia. apply Hso; lia.
    + intros n Hn Hhole Hbelow.
      destruct (up_step (exp_at s) (exp_at s1) n j) as [Hhole1 Hbelow1];
        [lia|done|done|done|by apply Swap_exp|].
      apply Hord; [lia|done..].
  - apply Z.ltb_ge in Hlt.
    exists s. split_and!; [done|done|apply heap_rel_refl|done|].
    intros n Hn Hhole Hbelow. apply (hole_closed _ _ j); [done..|].
    by intros _.
Qed.

Lemma down_loop_spec (fuel : nat) (s : memoryStore) (i n : Z) :
  pos_ok s → 0 ≤ i < n → n ≤ memoryStore.Len s → (Z.to_nat (n - i) ≤ fuel)%nat →
  ∃ s' i', heap.down_loop fuel s i n = Some (s', i') ∧ i ≤ i' < n ∧
    (i' = i → s' = s) ∧ pos_ok s' ∧ heap_rel s s' ∧
    (∀ k, k < i ∨ n ≤ k → slice_get (heap s') k = slice_get (heap s) k) ∧
    (hole (exp_at s) n i →
       hole (exp_at s') n i' ∧ below_ok (exp_at s') n i' ∧
       (i < i' → above_ok (exp_at s') i')).
Proof.
  revert s i. induction fuel as [|fuel IH]; intros s i Hpos Hi Hn Hfuel; [lia|].
  simpl. destruct ((n <=? 2 * i + 1) || (2 * i + 1 <? 0)) eqn:Hguard.
  { exists s, i. split_and!; [done|lia|lia|done|done|apply heap_rel_refl|done|].
    intros Hhole. split_and!; [done| |lia].
    intros c Hc Hpc. apply parent_children in Hpc; [|lia].
    apply orb_true_iff in Hguard as [?%Z.leb_le|?%Z.ltb_lt]; lia. }
  apply orb_false_iff in Hguard as [Hj1%Z.leb_gt _].
  set (j1 := 2 * i + 1) in *.
  set (e := exp_at s).
  assert (∃ j, (if j1 + 1 <? n then memoryStore.Less s (j1 + 1) j1 else Some false)
               ≫= (λ r : bool, Some (if r then j1 + 1 else j1)) = Some j ∧
               (j = j1 ∨ j = j1 + 1) ∧ j < n ∧
               (∀ c, 0 < c < n → heap.parent c = i → e j ≤ e c))
    as (j & Hsel & Hjc & Hjn & Hmin).
  { destruct (j1 + 1 <? n) eqn:Hj2.
    - apply Z.ltb_lt in Hj2.
      rewrite (Less_spec s (j1 + 1) j1) by (done || lia). simpl.
      destruct (exp_at s (j1 + 1) <? exp_at s j1) eqn:Hlt.
      + apply Z.ltb_lt in Hlt. exists (j1 + 1). split_and!; [done|lia|lia|].
        intros c Hc Hpc. apply parent_children in Hpc; [|lia]. destruct Hpc as [->| ->].
        * fold j1. unfold e. lia.
        * replace (2 * i + 2) with (j1 + 1) by lia. done.
      + apply Z.ltb_ge in Hlt. exists j1. split_and!; [done|lia|lia|].
        intros c Hc Hpc. apply parent_children in Hpc; [|lia]. destruct Hpc as [->| ->].
        * done.
        * replace (2 * i + 2) with (j1 + 1) by lia. done.
    - apply Z.ltb_ge in Hj2. simpl. exists j1. split_and!; [done|lia|lia|].
      intros c Hc Hpc. apply parent_children in Hpc; [|lia]. destruct Hpc as [->| ->]; [done|lia]. }
  assert (heap.parent j = i) as Hpj by (apply parent_children; lia).
  destruct (if j1 + 1 <? n then memoryStore.Less s (j1 + 1) j1 else Some false)
    as [r|] eqn:Hr; [simpl in Hsel|done].
  simpl. injection Hsel as Hsel. rewrite Hsel.
  rewrite (Less_spec s j i) by (done || lia). simpl. fold e.
  destruct (e j <? e i) eqn:Hlt; simpl.
  - apply Z.ltb_lt in Hlt.
    destruct (Swap_spec s i j) as (s1 & -> & Hpos1 & Hrel1 & Hsi & Hsj & Hso);
      [done|lia|lia|lia|]. simpl.
    pose proof (heap_rel_Len _ _ Hrel1) as Hlen1.
    destruct (IH s1 j) as (s' & i' & -> & Hi' & Hsame & Hpos' & Hrel' & Hframe & Hord);
      [done|lia|lia|lia|].
    exists s', i'. split_and!; [done|lia|lia|lia|done|by eapply heap_rel_trans|..].
    + intros k Hk. rewrite Hframe by lia. apply Hso; lia.
    + intros Hhole.
      destruct (down_step e (exp_at s1) n i j) as [Hhole1 Habove1];
        [lia|lia|done|done|done|done|by apply Swap_exp|].
      destruct (Hord Hhole1) as (Hh & Hb & Ha).
      split_and!; [done|done|].
      intros _. destruct (decide (i' = j)) as [->|Hne].
      * by rewrite (Hsame eq_refl).
      * apply Ha. lia.
  - apply Z.ltb_ge in Hlt.
    exists s, i. split_and!; [done|lia|lia|done|done|apply heap_rel_refl|done|].
    intros Hhole. split_and!; [done| |lia].
    intros c Hc Hpc. fold e. trans (e j); [done|by apply Hmin].
Qed.

(** ** The methods [Push] and [Pop], and [heap.Push], [heap.Remove] *)

Lemma slice_get_app_l {A} (l : list A) (x : A) (k : Z) :
  k < Z.of_nat (length l) → slice_get (l ++ [x]) k = slice_get l k.
Proof.
  intros Hk. unfold slice_get. case_decide; [|done].
  apply lookup_app_l. lia.
Qed.

Lemma slice_get_app_last {A} (l : list A) (x : A) :
  slice_get (l ++ [x]) (Z.of_nat (length l)) = Some x.
Proof.
  rewrite slice_get_of_nat. rewrite lookup_app_r by lia.
  by rewrite Nat.sub_diag.
Qed.

Lemma Pop_spec (s : memoryStore) :
  pos_ok s → 0 < memoryStore.Len s →
  ∃ s' p it, memoryStore.Pop s = Some (s', p) ∧
    slice_get (heap s) (memoryStore.Len s - 1) = Some p ∧
    objs s !! p = Some it ∧ heap s = heap s' ++ [p] ∧ pos_ok s' ∧
    same_items (objs s) (objs s') ∧
    index s' = delete (item_key it) (index s).
Proof.
  intros Hpos Hlen.
  destruct (pos_ok_slot s (memoryStore.Len s - 1) Hpos) as (p & it & Hp & Hit & _ & _);
    [lia|].
  set (it' := {| item_key := item_key it; item_value := item_value it;
                 item_expiredAt := item_expiredAt it; item_index := -1 |}).
  set (o1 := <[p := it']> (objs s)).
  pose proof Hp as Hm. rewrite slice_get_lookup in Hm by lia.
  set (m := Z.to_nat (memoryStore.Len s - 1)) in *.
  assert (heap s = take m (heap s) ++ [p]) as Hsplit.
  { rewrite <- (take_S_r _ _ _ Hm). symmetry. apply take_ge.
    unfold m, memoryStore.Len. lia. }
  exists {| objs := o1; heap := take m (heap s);
            index := delete (item_key it) (index s) |}, p, it.
  split_and!; simpl; [|done|done|done| |by apply same_items_insert with it|done].
  - unfold memoryStore.Pop. rewrite Hp. simpl.
    rewrite (set_index_Some _ _ _ _ Hit). simpl. fold it' o1.
    assert (o1 !! p = Some it') as -> by apply lookup_insert_eq. done.
  - intros c q Hc. simpl in Hc.
    pose proof (lookup_lt_Some _ _ _ Hc) as Hlt. rewrite length_take in Hlt.
    rewrite lookup_take_lt in Hc by lia.
    destruct (Hpos _ _ Hc) as (itq & Hq & Hidx).
    exists itq. split; [|done]. simpl. unfold o1. rewrite lookup_insert_ne; [done|].
    intros <-. pose proof (pos_ok_inj s c m _ Hpos Hc Hm). lia.
Qed.

Lemma Push_method_spec (s : memoryStore) (p : loc) (it : memoryItem) :
  pos_ok s → objs s !! p = Some it → p ∉ heap s →
  ∃ s', memoryStore.Push s p = Some s' ∧ pos_ok s' ∧ heap s' = heap s ++ [p] ∧
    same_items (objs s) (objs s') ∧ index s' = <[item_key it := p]> (index s).
Proof.
  intros Hpos Hit Hfresh.
  set (it' := {| item_key := item_key it; item_value := item_value it;
                 item_expiredAt := item_expiredAt it;
                 item_index := memoryStore.Len s |}).
  set (o1 := <[p := it']> (objs s)).
  exists {| objs := o1; heap := heap s ++ [p];
            index := <[item_key it := p]> (index s) |}.
  split_and!; simpl; [| |done|by apply same_items_insert with it|done].
  - unfold memoryStore.Push. rewrite (set_index_Some _ _ _ _ Hit). simpl.
    fold it' o1. assert (o1 !! p = Some it') as -> by apply lookup_insert_eq. done.
  - intros c q Hc. simpl in Hc.
    apply lookup_app_Some in Hc as [Hc|[Hlen Hc]].
    + destruct (Hpos _ _ Hc) as (itq & Hq & Hidx).
      exists itq. split; [|done]. simpl. unfold o1. rewrite lookup_insert_ne; [done|].
      intros <-. apply Hfresh. by eapply list_elem_of_lookup_2.
    + apply list_lookup_singleton_Some in Hc as [Hc <-].
      exists it'. split; [apply lookup_insert_eq|].
      simpl. unfold memoryStore.Len. lia.
Qed.

Lemma heap_Push_spec (s : memoryStore) (p : loc) (it : memoryItem) :
  pos_ok s → objs s !! p = Some it → p ∉ heap s →
  ∃ s', heap.Push s p = Some s' ∧ pos_ok s' ∧ heap s' ≡ₚ p :: heap s ∧
    same_items (objs s) (objs s') ∧ index s' = <[item_key it := p]> (index s) ∧
    (heap_ordered s → heap_ordered s').
Proof.
  intros Hpos Hit Hfresh.
  destruct (Push_method_spec s p it) as (s1 & Hpush & Hpos1 & Hheap1 & Hsame1 & Hidx1);
    [done..|].
  assert (memoryStore.Len s1 = memoryStore.Len s + 1) as Hlen1.
  { unfold memoryStore.Len. rewrite Hheap1, length_app. simpl. lia. }
  assert (0 ≤ memoryStore.Len s) as Hlen0 by (unfold memoryStore.Len; lia).
  destruct (up_loop_spec (S (Z.to_nat (memoryStore.Len s1 - 1))) s1
              (memoryStore.Len s1 - 1))
    as (s' & Hup & Hpos' & Hrel' & _ & Hord); [done|lia|lia|].
  exists s'. split_and!.
  - unfold heap.Push. simpl. rewrite Hpush. simpl. exact Hup.
  - done.
  - rewrite (hr_perm _ _ Hrel'), Hheap1. by rewrite Permutation_app_comm.
  - eapply same_items_trans; [done|]. apply Hrel'.
  - by rewrite (hr_index _ _ Hrel').
  - intros Hho. unfold heap_ordered.
    rewrite (heap_rel_Len _ _ Hrel'). rewrite Hlen1.
    assert (ordered (exp_at s1) (memoryStore.Len s)) as Hord1.
    { apply (ordered_ext (exp_at s)); [done|].
      intros k Hk. apply exp_at_transport; [done|].
      rewrite Hheap1. apply slice_get_app_l. unfold memoryStore.Len in Hk. lia. }
    destruct (hole_last _ _ Hlen0 Hord1) as [Hhole Hbelow].
    apply Hord; [lia|..]; by replace (memoryStore.Len s1 - 1) with (memoryStore.Len s) by lia.
Qed.

Lemma heap_Remove_spec (s : memoryStore) (i : Z) :
  pos_ok s → 0 ≤ i < memoryStore.Len s →
  ∃ s' p it, heap.Remove s i = Some (s', p) ∧
    slice_get (heap s) i = Some p ∧ objs s !! p = Some it ∧
    pos_ok s' ∧ heap s ≡ₚ p :: heap s' ∧
    same_items (objs s) (objs s') ∧
    index s' = delete (item_key it) (index s) ∧
    (heap_ordered s → heap_ordered s').
Proof.
  intros Hpos Hi.
  destruct (pos_ok_slot s i Hpos Hi) as (p & it & Hp & Hit & _ & _).
  set (n := memoryStore.Len s - 1).
  (* the store handed to Pop *)
  assert (∃ s3,
    (if decide (n ≠ i) then
       h1 ← memoryStore.Swap s i n;
       '(h2, moved) ← heap.down h1 i n;
       if negb moved then heap.up h2 i else Some h2
     else Some s) = Some s3 ∧
    pos_ok s3 ∧ heap_rel s s3 ∧ slice_get (heap s3) n = Some p ∧
    (heap_ordered s → ordered (exp_at s3) n)) as (s3 & Hs3 & Hpos3 & Hrel3 & Hlast & Hord3).
  { case_decide as Hni.
    - destruct (Swap_spec s i n) as (s1 & -> & Hpos1 & Hrel1 & Hsi & Hsn & Hso);
        [done|lia|unfold n; lia|lia|]. simpl.
      pose proof (heap_rel_Len _ _ Hrel1) as Hlen1.
      destruct (down_loop_spec (S (Z.to_nat n)) s1 i n)
        as (s2 & i' & Hdown & Hi' & Hsame2 & Hpos2 & Hrel2 & Hframe2 & Hord2);
        [done|unfold n; lia|unfold n in *; lia|lia|].
      pose proof (heap_rel_Len _ _ Hrel2) as Hlen2.
      unfold heap.down. rewrite Hdown. simpl.
      assert (heap_ordered s → hole (exp_at s1) n i) as Hhole1.
      { intros Hho. apply (ordered_hole (exp_at s)).
        - apply (ordered_weaken _ (memoryStore.Len s)); [done|unfold n; lia].
        - intros k Hk Hki. apply exp_at_transport; [apply Hrel1|].
          apply Hso; lia. }
      destruct (i <? i') eqn:Hmoved; simpl.
      + apply Z.ltb_lt in Hmoved.
        exists s2. split_and!; [done|done|by eapply heap_rel_trans| |].
        * rewrite Hframe2 by lia. by rewrite Hsn.
        * intros Hho. destruct (Hord2 (Hhole1 Hho)) as (Hh & Hb & Ha).
          apply (hole_closed _ _ i'); [done|done|by apply Ha].
      + apply Z.ltb_ge in Hmoved. assert (i' = i) as -> by lia.
        rewrite (Hsame2 eq_refl) in *.
        destruct (up_loop_spec (S (Z.to_nat i)) s1 i)
          as (s3 & Hup & Hpos3 & Hrel3 & Hframe3 & Hord3); [done|lia|lia|].
        exists s3. split_and!; [done|done|by eapply heap_rel_trans| |].
        * rewrite Hframe3 by (unfold n in *; lia). by rewrite Hsn.
        * intros Hho. destruct (Hord2 (Hhole1 Hho)) as (Hh & Hb & _).
          apply Hord3; [unfold n in *; lia|done..].
    - exists s.
      split_and!; [done|done|apply heap_rel_refl|by rewrite Hni|].
      intros Hho. apply (ordered_weaken _ (memoryStore.Len s)); [done|unfold n; lia]. }
  pose proof (heap_rel_Len _ _ Hrel3) as Hlen3.
  destruct (Pop_spec s3 Hpos3) as (s' & p' & it3 & Hpop & Hp' & Hit3 & Hheap & Hpos' & Hsame' & Hidx');
    [lia|].
  assert (p' = p) as ->.
  { rewrite Hlen3 in Hp'. fold n in Hp'. congruence. }
  destruct (same_items_lookup _ _ _ _ (hr_items _ _ Hrel3) Hit) as (it3' & Hit3' & Himm).
  assert (it3' = it3) as -> by congruence.
  exists s', p, it. split_and!; [|done|done|done| | | |].
  - change (heap.Remove s i) with
      ((if decide (n ≠ i) then
          h1 ← memoryStore.Swap s i n;
          '(h2, moved) ← heap.down h1 i n;
          if negb moved then heap.up h2 i else Some h2
        else Some s) ≫= memoryStore.Pop).
    rewrite Hs3. exact Hpop.
  - rewrite <- (hr_perm _ _ Hrel3), Hheap. by rewrite Permutation_app_comm.
  - eapply same_items_trans; [apply Hrel3|done].
  - rewrite Hidx', (hr_index _ _ Hrel3). unfold imm in Himm. congruence.
  - intros Hho. unfold heap_ordered.
    assert (memoryStore.Len s' = n) as Hlen'.
    { unfold memoryStore.Len in *. rewrite Hheap, length_app in Hlen3.
      simpl in Hlen3. unfold n. lia. }
    rewrite Hlen'. apply (ordered_ext (exp_at s3)); [by apply Hord3|].
    intros k Hk. apply exp_at_transport; [done|].
    rewrite Hheap. symmetry. apply slice_get_app_l.
    unfold memoryStore.Len in Hlen'. lia.
Qed.

(** ** The invariant of the public operations *)

Lemma Inv_new : Inv newMemoryStore.
Proof.
  split_and!.
  - intros i p Hi. done.
  - intros k p Hk. simpl in Hk. by rewrite lookup_empty in Hk.
  - intros k Hk. unfold memoryStore.Len in Hk. simpl in Hk. lia.
Qed.

Lemma heap_allocated (s : memoryStore) (p : loc) :
  pos_ok s → p ∈ heap s → is_Some (objs s !! p).
Proof.
  intros Hpos [i Hi]%list_elem_of_lookup.
  destruct (Hpos _ _ Hi) as (it & Hit & _). by exists it.
Qed.

Lemma fresh_not_in_heap (s : memoryStore) :
  pos_ok s → fresh (dom (objs s)) ∉ heap s.
Proof.
  intros Hpos Hin. apply (heap_allocated s _ Hpos) in Hin.
  apply elem_of_dom in Hin. by apply is_fresh in Hin.
Qed.

Lemma heap_slot_of (s : memoryStore) (p : loc) (it : memoryItem) :
  pos_ok s → p ∈ heap s → objs s !! p = Some it →
  0 ≤ item_index it < memoryStore.Len s ∧
  slice_get (heap s) (item_index it) = Some p.
Proof.
  intros Hpos [a Ha]%list_elem_of_lookup Hit.
  destruct (Hpos _ _ Ha) as (it' & Hit' & Hidx). simplify_eq.
  pose proof (lookup_lt_Some _ _ _ Ha). rewrite Hidx.
  split; [unfold memoryStore.Len; lia|by rewrite slice_get_of_nat].
Qed.

Lemma Set_spec (now : time) (s : memoryStore) (key : string) (value : any)
    (lifetime : Duration) :
  Inv s →
  ∃ s' p it, memoryStore.Set_ now s key value lifetime = Some (s', None) ∧ Inv s' ∧
    (p ∉ heap s) ∧ heap s' ≡ₚ p :: heap s ∧
    index s' = <[key := p]> (index s) ∧
    objs s' !! p = Some it ∧
    imm it = (key, value, Add now lifetime) ∧
    (∀ q, q ∈ heap s → imm <$> objs s' !! q = imm <$> objs s !! q).
Proof.
  intros (Hpos & Hidx & Hord).
  set (p := fresh (dom (objs s))).
  set (it0 := {| item_key := key; item_value := value;
                 item_expiredAt := Add now lifetime; item_index := 0 |}).
  set (s0 := {| objs := <[p := it0]> (objs s); heap := heap s; index := index s |}).
  pose proof (fresh_not_in_heap s Hpos) as Hfresh. fold p in Hfresh.
  assert (∀ q, q ∈ heap s → objs s0 !! q = objs s !! q) as Hold.
  { intros q Hq. simpl. rewrite lookup_insert_ne; [done|]. by intros <-. }
  assert (pos_ok s0) as Hpos0.
  { intros i q Hi. simpl in Hi. rewrite Hold by (by eapply list_elem_of_lookup_2).
    by apply Hpos. }
  assert (heap_ordered s0) as Hord0.
  { apply (ordered_ext (exp_at s)); [done|].
    intros k Hk. unfold exp_at. simpl.
    destruct (slice_get (heap s) k) as [q|] eqn:Hq; [simpl|done].
    rewrite lookup_insert_ne; [done|]. intros <-. apply Hfresh.
    rewrite slice_get_lookup in Hq by lia. by eapply list_elem_of_lookup_2. }
  destruct (heap_Push_spec s0 p it0)
    as (s' & Hpush & Hpos' & Hperm & Hsame & Hindex & Hord'); [done| |done|].
  { simpl. apply lookup_insert_eq. }
  destruct (same_items_lookup _ _ p it0 Hsame) as (it & Hit & Himm).
  { simpl. apply lookup_insert_eq. }
  exists s', p, it. split_and!; [|split_and!|done|done|done|done|done|].
  - change (memoryStore.Set_ now s key value lifetime)
      with (heap.Push s0 p ≫= λ s1, Some (s1, @None error)).
    by rewrite Hpush.
  - done.
  - intros k q Hk. rewrite Hindex in Hk. simpl in Hk.
    destruct (decide (k = key)) as [->|Hne].
    + rewrite lookup_insert_eq in Hk. injection Hk as <-. split.
      * rewrite Hperm. apply list_elem_of_here.
      * exists it. split; [done|]. unfold imm in Himm. simpl in Himm. congruence.
    + rewrite lookup_insert_ne in Hk by done.
      destruct (Hidx _ _ Hk) as (Hq & itq & Hitq & Hkey). split.
      * rewrite Hperm. by apply list_elem_of_further.
      * destruct (same_items_lookup _ _ q itq Hsame) as (itq' & Hitq' & Himmq).
        { by rewrite Hold. }
        exists itq'. split; [done|]. unfold imm in Himmq. congruence.
  - by apply Hord'.
  - intros q Hq. rewrite (Hsame q). by rewrite Hold.
Qed.

Lemma Remove_Inv (s : memoryStore) (i : Z) :
  Inv s → 0 ≤ i < memoryStore.Len s →
  ∃ s' p it, heap.Remove s i = Some (s', p) ∧
    slice_get (heap s) i = Some p ∧ objs s !! p = Some it ∧ Inv s' ∧
    heap s ≡ₚ p :: heap s' ∧ same_items (objs s) (objs s') ∧
    index s' = delete (item_key it) (index s).
Proof.
  intros (Hpos & Hidx & Hord) Hi.
  destruct (heap_Remove_spec s i Hpos Hi)
    as (s' & p & it & Hrm & Hp & Hit & Hpos' & Hperm & Hsame & Hindex & Hord').
  exists s', p, it. split_and!; [done..|split_and!|done|done|done]; [done| |by apply Hord'].
  intros k q Hk. rewrite Hindex in Hk.
  apply lookup_delete_Some in Hk as [Hne Hk].
  destruct (Hidx _ _ Hk) as (Hq & itq & Hitq & Hkey). split.
  - rewrite Hperm in Hq. apply elem_of_cons in Hq as [->|Hq]; [|done].
    congruence.
  - destruct (same_items_lookup _ _ q itq Hsame Hitq) as (itq' & Hitq' & Himm).
    exists itq'. split; [done|]. unfold imm in Himm. congruence.
Qed.

Lemma Get_spec (now : time) (s : memoryStore) (key : string) :
  Inv s →
  ∃ r d, memoryStore.Get now s key = Some (s, r, d) ∧
    match index s !! key with
    | None => r = Nil ∧ d = None
    | Some p =>
        ∃ it, objs s !! p = Some it ∧ item_key it = key ∧
          if decide (item_expiredAt it ≤ now) then r = Nil ∧ d = Some key
          else r = item_value it ∧ d = None
    end.
Proof.
  intros (Hpos & Hidx & Hord). unfold memoryStore.Get.
  destruct (index s !! key) as [p|] eqn:Hk; [|by exists Nil, None].
  destruct (Hidx _ _ Hk) as (_ & it & Hit & Hkey). rewrite Hit. simpl.
  unfold Before. destruct (now <? item_expiredAt it) eqn:Hlt; simpl.
  - apply Z.ltb_lt in Hlt. exists (item_value it), None. split; [done|].
    exists it. rewrite decide_False by lia. done.
  - apply Z.ltb_ge in Hlt. exists Nil, (Some key). split; [done|].
    exists it. rewrite decide_True by lia. done.
Qed.

Lemma Delete_spec (s : memoryStore) (key : string) :
  Inv s →
  ∃ s', memoryStore.Delete s key = Some (s', None) ∧ Inv s' ∧
    index s' = delete key (index s) ∧
    match index s !! key with
    | None => s' = s
    | Some p => heap s ≡ₚ p :: heap s' ∧ same_items (objs s) (objs s')
    end.
Proof.
  intros HInv. pose proof HInv as (Hpos & Hidx & Hord). unfold memoryStore.Delete.
  destruct (index s !! key) as [p|] eqn:Hk.
  - destruct (Hidx _ _ Hk) as (Hp & it & Hit & Hkey). rewrite Hit. simpl.
    destruct (heap_slot_of s p it Hpos Hp Hit) as [Hrange Hslot].
    destruct (Remove_Inv s (item_index it) HInv Hrange)
      as (s' & p' & it' & -> & Hp' & Hit' & HInv' & Hperm & Hsame & Hindex).
    assert (p' = p) as -> by congruence.
    assert (it' = it) as -> by congruence.
    exists s'. simpl. split_and!; [done|done|by rewrite Hindex, Hkey|done|done].
  - exists s. split_and!; [done|done| |done].
    symmetry. by apply delete_id.
Qed.

Lemma Flush_spec (s : memoryStore) :
  ∃ s', memoryStore.Flush s = Some (s', None) ∧ Inv s' ∧ heap s' = [] ∧ index s' = ∅.
Proof.
  eexists. split; [done|]. split; [|done].
  split_and!.
  - intros i p Hi. done.
  - intros k p Hk. simpl in Hk. by rewrite lookup_empty in Hk.
  - intros k Hk. unfold memoryStore.Len in Hk. simpl in Hk. lia.
Qed.

Lemma root_slot (s : memoryStore) :
  pos_ok s → memoryStore.Len s ≠ 0 →
  ∃ p it, slice_get (heap s) 0 = Some p ∧ objs s !! p = Some it ∧
          item_index it = 0 ∧ exp_at s 0 = item_expiredAt it.
Proof.
  intros Hpos Hlen. apply pos_ok_slot; [done|].
  unfold memoryStore.Len in *. lia.
Qed.

Lemma exp_of_same (o o' : gmap loc memoryItem) (p : loc) :
  same_items o o' → exp_of o' p = exp_of o p.
Proof.
  intros Hsame. unfold exp_of. specialize (Hsame p).
  destruct (o' !! p) as [it'|], (o !! p) as [it|]; simplify_eq/=; [|done].
  unfold imm in Hsame. congruence.
Qed.

Lemma exp_at_exp_of (s : memoryStore) (k : Z) (p : loc) :
  slice_get (heap s) k = Some p → exp_at s k = exp_of (objs s) p.
Proof.
  intros Hk. unfold exp_at, exp_of. rewrite Hk. simpl.
  by destruct (objs s !! p).
Qed.

Lemma root_min_ptr (s : memoryStore) (c q : loc) :
  Inv s → slice_get (heap s) 0 = Some c → q ∈ heap s →
  exp_of (objs s) c ≤ exp_of (objs s) q.
Proof.
  intros (Hpos & _ & Hord) Hc [a Ha]%list_elem_of_lookup.
  rewrite <- (exp_at_exp_of s 0 c Hc).
  rewrite <- (exp_at_exp_of s (Z.of_nat a) q) by (by rewrite slice_get_of_nat).
  apply (ordered_root_min _ _ Hord).
  pose proof (lookup_lt_Some _ _ _ Ha). unfold memoryStore.Len. lia.
Qed.

Lemma GC_round_spec (now : time) (s : memoryStore) :
  Inv s →
  ∃ s' fin, memoryStore.GC_round now s = Some (s', fin) ∧ Inv s' ∧
    if (fin : bool) then
      s' = s ∧ Forall (λ p, now < exp_of (objs s) p) (heap s)
    else
      ∃ c it, slice_get (heap s) 0 = Some c ∧ objs s !! c = Some it ∧
        item_expiredAt it ≤ now ∧ heap s ≡ₚ c :: heap s' ∧
        same_items (objs s) (objs s') ∧
        index s' = delete (item_key it) (index s).
Proof.
  intros HInv. unfold memoryStore.GC_round. case_decide as Hlen.
  { exists s, true. split_and!; [done..|].
    unfold memoryStore.Len in Hlen.
    assert (heap s = []) as -> by (apply nil_length_inv; lia). constructor. }
  pose proof HInv as (Hpos & _ & _).
  destruct (root_slot s Hpos Hlen) as (c & it & Hc & Hit & Hidx & _).
  rewrite Hc. simpl. rewrite Hit. simpl.
  unfold Before. destruct (now <? item_expiredAt it) eqn:Hlt.
  { apply Z.ltb_lt in Hlt. exists s, true. split_and!; [done..|].
    apply Forall_forall. intros q Hq.
    pose proof (root_min_ptr s c q HInv Hc Hq) as Hmin.
    unfold exp_of in Hmin at 1. rewrite Hit in Hmin. simpl in Hmin. lia. }
  apply Z.ltb_ge in Hlt.
  destruct (Remove_Inv s (item_index it) HInv)
    as (s1 & p & it' & -> & Hp & Hit' & HInv1 & Hperm & Hsame & Hindex).
  { rewrite Hidx. unfold memoryStore.Len in *. lia. }
  rewrite Hidx, Hc in Hp. injection Hp as <-.
  assert (it' = it) as -> by congruence. simpl.
  exists s1, false. split_and!; [done..|]. by exists c, it.
Qed.

Lemma GC_loop_Inv (fuel : nat) (ctx : Context) (polls : nat) (now : time)
    (s : memoryStore) :
  Inv s → (length (heap s) < fuel)%nat →
  ∃ s', memoryStore.GC_loop fuel ctx polls now s = Some s' ∧ Inv s'.
Proof.
  revert s polls. induction fuel as [|fuel IH]; intros s polls HInv Hfuel; [lia|].
  simpl. destruct (ctx polls); [by exists s|].
  destruct (GC_round_spec now s HInv) as (s1 & fin & -> & HInv1 & Hround). simpl.
  destruct fin; [by exists s1|].
  destruct Hround as (c & it & _ & _ & _ & Hperm & _).
  apply IH; [done|].
  apply Permutation_length in Hperm. simpl in Hperm. lia.
Qed.

Lemma GC_Inv (ctx : Context) (now : time) (s : memoryStore) :
  Inv s → ∃ s', memoryStore.GC ctx now s = Some (s', None) ∧ Inv s'.
Proof.
  intros HInv. unfold memoryStore.GC.
  destruct (GC_loop_Inv (S (length (heap s))) ctx 0 now s HInv) as (s' & -> & HInv');
    [lia|].
  by exists s'.
Qed.

Lemma exec_Inv (c : call) (s : memoryStore) :
  Inv s → ∃ s', exec c s = Some s' ∧ Inv s'.
Proof.
  intros HInv.
  destruct c as [now key|now key value lifetime|key| |ctx now|now]; unfold exec.
  - destruct (Get_spec now s key HInv) as (r & d & -> & _). by exists s.
  - destruct (Set_spec now s key value lifetime HInv) as (s' & p & it & -> & HInv' & _).
    by exists s'.
  - destruct (Delete_spec s key HInv) as (s' & -> & HInv' & _). by exists s'.
  - destruct (Flush_spec s) as (s' & -> & HInv' & _). by exists s'.
  - destruct (GC_Inv ctx now s HInv) as (s' & -> & HInv'). by exists s'.
  - destruct (GC_round_spec now s HInv) as (s' & fin & -> & HInv' & _). by exists s'.
Qed.

Lemma run_Inv (cs : list call) (s : memoryStore) :
  Inv s → ∃ s', run cs s = Some s' ∧ Inv s'.
Proof.
  revert s. induction cs as [|c cs IH]; intros s HInv; simpl; [by exists s|].
  destruct (exec_Inv c s HInv) as (s1 & -> & HInv1). simpl. by apply IH.
Qed.

(** ** Reading and removing the minimum *)

Lemma drain_spec (n : nat) (s : memoryStore) :
  Inv s → length (heap s) = n →
  ∃ l, drain n s = Some l ∧ l ≡ₚ exps s ∧ StronglySorted Z.le l.
Proof.
  revert s. induction n as [|n IH]; intros s HInv Hlen.
  - exists []. split_and!; [done| |constructor].
    unfold exps. by rewrite (nil_length_inv _ Hlen).
  - pose proof HInv as (Hpos & _ & _). simpl.
    destruct (root_slot s Hpos) as (c & it & Hc & Hit & Hidx & _).
    { unfold memoryStore.Len. lia. }
    rewrite Hc. simpl. rewrite Hit. simpl.
    destruct (Remove_Inv s (item_index it) HInv)
      as (s1 & p & it' & -> & Hp & _ & HInv1 & Hperm & Hsame & _).
    { rewrite Hidx. unfold memoryStore.Len. lia. }
    rewrite Hidx, Hc in Hp. injection Hp as <-. simpl.
    destruct (IH s1 HInv1) as (l1 & -> & Hperm1 & Hsorted1).
    { apply Permutation_length in Hperm. simpl in Hperm. lia. }
    assert (exps s1 = exp_of (objs s) <$> heap s1) as Hexps1.
    { unfold exps. apply list_fmap_ext. intros ? q _. by apply exp_of_same. }
    assert (item_expiredAt it = exp_of (objs s) c) as Hroot.
    { unfold exp_of. by rewrite Hit. }
    exists (item_expiredAt it :: l1). simpl. split_and!; [done| |].
    + unfold exps at 1. rewrite Hperm, fmap_cons, Hperm1, Hexps1. by rewrite Hroot.
    + constructor; [done|]. rewrite Hperm1, Hexps1, Hroot.
      apply Forall_fmap, Forall_forall. intros q Hq. simpl.
      apply (root_min_ptr s c q HInv Hc). rewrite Hperm. by apply list_elem_of_further.
Qed.

(** ** The scheduler's loop *)

Lemma loop_head {S : Type} (GC : S → S * option error) (wakes : list manager.wake)
    (store : S) :
  ∃ rest, (manager.loop GC wakes store).2 = manager.CallGC :: rest.
Proof.
  destruct wakes as [|w wakes]; simpl.
  - destruct (GC store) as [store' err]. by eexists.
  - destruct (GC store) as [store' err]. destruct (manager.takes_stop w); [by eexists|].
    destruct (manager.loop GC wakes store'). by eexists.
Qed.

Lemma loop_calls {S : Type} (GC : S → S * option error) (wakes : list manager.wake)
    (store : S) :
  manager.calls (manager.loop GC wakes store).2 = Datatypes.S (ticks_taken wakes).
Proof.
  revert store. induction wakes as [|w wakes IH]; intros store; simpl.
  - by destruct (GC store) as [store' [err|]].
  - destruct (GC store) as [store' err].
    destruct (manager.takes_stop w) eqn:Hw; [by destruct err|].
    specialize (IH store').
    destruct (manager.loop GC wakes store') as [store'' rest]. simpl in IH.
    destruct err; simpl; by rewrite IH.
Qed.

Lemma loop_after_signal {S : Type} (GC : S → S * option error)
    (wakes : list manager.wake) (store : S) :
  (∀ w, w ∈ wakes → manager.stop_ready w = true → manager.takes_stop w = true) →
  ∀ post, manager.after_signal (manager.loop GC wakes store).2 = Some post →
    post = [manager.TickerStop; manager.Return].
Proof.
  revert store. induction wakes as [|w wakes IH]; intros store Hprompt post; simpl.
  - by destruct (GC store) as [store' [err|]].
  - destruct (GC store) as [store' err].
    destruct (manager.takes_stop w) eqn:Hw.
    + assert (manager.stop_ready w = true) as Hready by (by destruct w).
      destruct err; simpl; rewrite Hready; by intros [= <-].
    + assert (manager.stop_ready w = false) as Hready.
      { destruct (manager.stop_ready w) eqn:Hr; [|done].
        rewrite Hprompt in Hw; [done|apply list_elem_of_here|done]. }
      specialize (IH store').
      destruct (manager.loop GC wakes store') as [store'' rest]. simpl in IH.
      assert (manager.after_signal rest = Some post →
              post = [manager.TickerStop; manager.Return]) as Hrest.
      { apply IH. intros w' Hw'. apply Hprompt. by apply list_elem_of_further. }
      destruct err; simpl; by rewrite Hready.
Qed.

Lemma loop_after_stop {S : Type} (GC : S → S * option error)
    (wakes : list manager.wake) (store : S) :
  after_stop (manager.loop GC wakes store).2 =
  if existsb manager.takes_stop wakes
  then Some [manager.TickerStop; manager.Return] else None.
Proof.
  revert store. induction wakes as [|w wakes IH]; intros store; simpl.
  - by destruct (GC store) as [store' [err|]].
  - destruct (GC store) as [store' err].
    destruct (manager.takes_stop w) eqn:Hw.
    + destruct err; simpl; by rewrite Hw.
    + specialize (IH store').
      destruct (manager.loop GC wakes store') as [store'' rest]. simpl in IH.
      destruct err; simpl; by rewrite Hw.
Qed.

Lemma loop_before_select {S : Type} (GC : S → S * option error)
    (wakes : list manager.wake) (store : S) :
  manager.calls (before_select (manager.loop GC wakes store).2) = 1%nat.
Proof.
  destruct wakes as [|w wakes]; simpl.
  - by destruct (GC store) as [store' [err|]].
  - destruct (GC store) as [store' err]. destruct (manager.takes_stop w).
    + by destruct err.
    + destruct (manager.loop GC wakes store') as [store'' rest]. by destruct err.
Qed.

(** ** What [GC] removes *)

Lemma Remove_consistent (s s' : memoryStore) (p : loc) (it : memoryItem) :
  Inv s → Inv s' → objs s !! p = Some it →
  heap s ≡ₚ p :: heap s' → same_items (objs s) (objs s') →
  index s' = delete (item_key it) (index s) →
  consistent s → consistent s'.
Proof.
  intros (Hpos & _ & _) (_ & Hidx' & _) Hit Hperm Hsame Hindex [_ Hslots].
  split; [intros k q Hk; by destruct (Hidx' k q Hk)|].
  intros q Hq.
  assert (q ≠ p) as Hqp.
  { intros ->. pose proof (pos_ok_NoDup s Hpos) as Hnd. rewrite Hperm in Hnd.
    by apply NoDup_cons in Hnd as [? _]. }
  destruct (Hslots q) as (itq & Hitq & Hkq).
  { rewrite Hperm. by apply list_elem_of_further. }
  destruct (Hslots p) as (itp & Hitp & Hkp).
  { rewrite Hperm. apply list_elem_of_here. }
  assert (itp = it) as -> by congruence.
  destruct (same_items_lookup _ _ q itq Hsame Hitq) as (itq' & Hitq' & Himm).
  exists itq'. split; [done|].
  assert (item_key itq' = item_key itq) as -> by (unfold imm in Himm; congruence).
  rewrite Hindex, lookup_delete_ne; [done|]. intros Heq. congruence.
Qed.

Lemma GC_loop_spec (fuel polls : nat) (now : time) (s : memoryStore) :
  Inv s → (length (heap s) < fuel)%nat →
  ∃ s' removed,
    memoryStore.GC_loop fuel Background polls now s = Some s' ∧
    GC_removed fuel Background polls now s = Some removed ∧
    Inv s' ∧ heap s ≡ₚ removed ++ heap s' ∧ same_items (objs s) (objs s') ∧
    Forall (λ p, exp_of (objs s) p ≤ now) removed ∧
    Forall (λ p, now < exp_of (objs s) p) (heap s') ∧
    StronglySorted Z.le (exp_of (objs s) <$> removed) ∧
    (consistent s → consistent s').
Proof.
  revert s polls. induction fuel as [|fuel IH]; intros s polls HInv Hfuel; [lia|].
  simpl.
  destruct (GC_round_spec now s HInv) as (s1 & fin & -> & HInv1 & Hround). simpl.
  destruct fin.
  { destruct Hround as [-> Hlive]. exists s, []. split_and!; try done; constructor. }
  destruct Hround as (c & it & Hc & Hit & Hdead & Hperm & Hsame & Hindex).
  rewrite Hc. simpl.
  assert (exp_of (objs s) c = item_expiredAt it) as Hroot.
  { unfold exp_of. by rewrite Hit. }
  destruct (IH s1 (S polls) HInv1)
    as (s' & removed & -> & -> & HInv' & Hperm' & Hsame' & Hexp & Hlive & Hsorted & Hcons).
  { apply Permutation_length in Hperm. simpl in Hperm. lia. }
  assert (∀ q, exp_of (objs s1) q = exp_of (objs s) q) as Hexp1.
  { intros q. by apply exp_of_same. }
  exists s', (c :: removed). simpl. split_and!; [done|done|done|..].
  - by rewrite Hperm, Hperm'.
  - by eapply same_items_trans.
  - constructor; [lia|]. eapply Forall_impl; [done|]. intros q. simpl. by rewrite Hexp1.
  - eapply Forall_impl; [done|]. intros q. simpl. by rewrite Hexp1.
  - constructor.
    + erewrite list_fmap_ext; [done|]. intros ? q _. by rewrite Hexp1.
    + apply Forall_fmap, Forall_forall. intros q Hq. simpl.
      apply (root_min_ptr s c q HInv Hc).
      rewrite Hperm, Hperm'. apply list_elem_of_further, elem_of_app. by left.
  - intros Hc0. apply Hcons. by eapply (Remove_consistent s s1 c it).
Qed.

Lemma consistent_size (s : memoryStore) :
  Inv s → consistent s → size (index s) = length (heap s).
Proof.
  intros (Hpos & Hidx & _) [Hkeys Hslots].
  rewrite <- length_map_to_list, <- (length_fmap snd).
  apply Permutation_length, NoDup_Permutation.
  - apply NoDup_fmap_2_strong; [|apply NoDup_map_to_list].
    intros [k1 p1] [k2 p2] H1%elem_of_map_to_list H2%elem_of_map_to_list Heq.
    simpl in Heq. subst p2.
    destruct (Hidx _ _ H1) as (_ & it1 & Hit1 & Hk1).
    destruct (Hidx _ _ H2) as (_ & it2 & Hit2 & Hk2).
    f_equal. congruence.
  - by apply pos_ok_NoDup.
  - intros p. rewrite list_elem_of_fmap. split.
    + intros ([k q] & -> & Hk%elem_of_map_to_list). by eapply Hkeys.
    + intros Hp. destruct (Hslots p Hp) as (it & Hit & Hk).
      exists (item_key it, p). split; [done|]. by apply elem_of_map_to_list.
Qed.

Lemma Set_consistent (now : time) (s s' : memoryStore) (key : string) (p : loc)
    (it : memoryItem) :
  Inv s' → p ∉ heap s → heap s' ≡ₚ p :: heap s →
  index s' = <[key := p]> (index s) → objs s' !! p = Some it → item_key it = key →
  (∀ q, q ∈ heap s → imm <$> objs s' !! q = imm <$> objs s !! q) →
  index s !! key = None → consistent s → consistent s'.
Proof.
  intros (_ & Hidx' & _) Hfresh Hperm Hindex Hit Hkey Hold Habsent [_ Hslots].
  split; [intros k q Hk; by destruct (Hidx' k q Hk)|].
  intros q Hq. rewrite Hperm in Hq. apply elem_of_cons in Hq as [->|Hq].
  - exists it. split; [done|]. rewrite Hindex, Hkey. apply lookup_insert_eq.
  - destruct (Hslots q Hq) as (itq & Hitq & Hkq).
    specialize (Hold q Hq). rewrite Hitq in Hold.
    destruct (objs s' !! q) as [itq'|]; [|done].
    exists itq'. split; [done|]. simpl in Hold.
    assert (item_key itq' = item_key itq) as -> by (unfold imm in Hold; congruence).
    rewrite Hindex, lookup_insert_ne; [done|]. intros Heq. congruence.
Qed.

(** * The claims *)

(** ** The in-memory store: writing a key twice *)

(** C1 on the code.  [Set] of a key that already has a live entry pushes a
    second item: the heap then holds two slots of that key, the first entry
    keeps its value and expiration, and only the index map moves to the new
    item. *)
Theorem Set_existing_key_pushes_second_slot :
  ∃ s1 s2,
    memoryStore.Set_ 0 newMemoryStore "k" (Str "a") 1 = Some (s1, None) ∧
    index s1 !! "k" = Some 0%nat ∧
    memoryStore.Set_ 0 s1 "k" (Str "b") 10 = Some (s2, None) ∧
    heap s2 = [0%nat; 1%nat] ∧
    imm <$> objs s2 !! 0%nat = Some ("k", Str "a", 1) ∧
    imm <$> objs s2 !! 1%nat = Some ("k", Str "b", 10) ∧
    index s2 !! "k" = Some 1%nat.
Proof.
  eexists _, _.
  split; [vm_compute; reflexivity|].
  split; [vm_compute; reflexivity|].
  split; [vm_compute; reflexivity|].
  split_and!; vm_compute; reflexivity.
Qed.

(** C2 on the code.  After two [Set] calls on one key the index map has one
    key and the heap two slots; the first slot is not the entry of its key in
    the map, so the two structures are not in bijection. *)
Theorem Set_twice_breaks_index_heap_bijection :
  ∃ s, run [CallSet 0 "k" (Str "a") 1; CallSet 0 "k" (Str "b") 10] newMemoryStore
       = Some s ∧
    size (index s) = 1%nat ∧ length (heap s) = 2%nat ∧ ¬ consistent s.
Proof.
  eexists. split; [vm_compute; reflexivity|].
  split_and!; [by vm_compute..|].
  intros [_ Hslots].
  destruct (Hslots 0%nat) as (it & Hit & Hidx).
  - apply list_elem_of_here.
  - vm_compute in Hit. injection Hit as <-. by vm_compute in Hidx.
Qed.

(** C3 on the code.  With two entries under one key, [GC] at the first
    entry's expiration removes the first entry and with it the key of the
    index map: the second entry, which expires later, stays in the heap but
    [Get] no longer finds it. *)
Theorem GC_unregisters_live_entry_of_rewritten_key :
  ∃ s s',
    run [CallSet 0 "k" (Str "a") 1; CallSet 0 "k" (Str "b") 10] newMemoryStore
      = Some s ∧
    memoryStore.GC Background 1 s = Some (s', None) ∧
    heap s' = [1%nat] ∧
    imm <$> objs s' !! 1%nat = Some ("k", Str "b", 10) ∧
    index s' !! "k" = None ∧
    memoryStore.Get 1 s' "k" = Some (s', Nil, None).
Proof.
  eexists _, _.
  split; [vm_compute; reflexivity|].
  split; [vm_compute; reflexivity|].
  split_and!; vm_compute; reflexivity.
Qed.

(** ** The in-memory store: reading and reclaiming *)

(** C4, as amended.  On every reachable store [Get] returns the store as it
    found it.  It returns nil when the key is absent, and nil together with
    an asynchronous [Delete] when the entry's expiration is at or before the
    current instant; otherwise it returns the stored value and launches
    nothing.  Hence nil comes back exactly when the key is absent, the entry
    is expired, or the stored value is itself nil. *)
Theorem Get_returns_nil_or_stored_value (cs : list call) (now : time) (key : string) :
  ∃ s r d, run cs newMemoryStore = Some s ∧
    memoryStore.Get now s key = Some (s, r, d) ∧
    match index s !! key with
    | None => r = Nil ∧ d = None
    | Some p =>
        ∃ it, objs s !! p = Some it ∧
          if decide (item_expiredAt it ≤ now) then r = Nil ∧ d = Some key
          else r = item_value it ∧ d = None
    end ∧
    (r = Nil ↔
       index s !! key = None ∨
       ∃ p it, index s !! key = Some p ∧ objs s !! p = Some it ∧
         (item_expiredAt it ≤ now ∨ item_value it = Nil)).
Proof.
  destruct (run_Inv cs newMemoryStore Inv_new) as (s & Hrun & HInv).
  destruct (Get_spec now s key HInv) as (r & d & Hget & Hcase).
  exists s, r, d. split_and!; [done|done|..].
  - destruct (index s !! key) as [p|]; [|done].
    destruct Hcase as (it & Hit & _ & Hcase). by exists it.
  - destruct (index s !! key) as [p|] eqn:Hk.
    + destruct Hcase as (it & Hit & _ & Hcase). case_decide as Hexp.
      * destruct Hcase as [-> ->]. split; [|done].
        intros _. right. exists p, it. split_and!; [done|done|by left].
      * destruct Hcase as [-> ->]. split.
        -- intros Hnil. right. exists p, it. split_and!; [done|done|by right].
        -- intros [?|(p' & it' & ? & ? & [?|?])]; simplify_eq; [lia|done].
    + destruct Hcase as [-> ->]. split; [by left|done].
Qed.

(** C4, as stated, fails: a live entry that stores nil is answered like an
    absent key.  The key is in the index map and its entry expires strictly
    after the current instant, yet [Get] returns nil. *)
Lemma Get_nil_value_looks_absent :
  ∃ s, run [CallSet 0 "k" Nil 10] newMemoryStore = Some s ∧
    memoryStore.Get 5 s "k" = Some (s, Nil, None) ∧
    ∃ p it, index s !! "k" = Some p ∧ objs s !! p = Some it ∧
      5 < item_expiredAt it.
Proof.
  eexists. split; [vm_compute; reflexivity|].
  split; [vm_compute; reflexivity|].
  eexists _, _. split; [vm_compute; reflexivity|].
  split; [vm_compute; reflexivity|]. by vm_compute.
Qed.

(** C5, as amended.  On every reachable store, for every context and clock
    reading, [GC] terminates without panic and its only result besides the
    store is the nil error; no count is returned. *)
Theorem GC_returns_nil_error (cs : list call) (ctx : Context) (now : time) :
  ∃ s s', run cs newMemoryStore = Some s ∧
    memoryStore.GC ctx now s = Some (s', None).
Proof.
  destruct (run_Inv cs newMemoryStore Inv_new) as (s & Hrun & HInv).
  destruct (GC_Inv ctx now s HInv) as (s' & HGC & _).
  by exists s, s'.
Qed.

(** C5, as stated, fails: [GC] hands back the same value, the nil error,
    whether it removed no entry or one. *)
Lemma GC_result_is_not_a_count :
  ∃ s s' e,
    memoryStore.GC Background 5 newMemoryStore = Some (newMemoryStore, e) ∧
    run [CallSet 0 "k" (Str "v") 1] newMemoryStore = Some s ∧
    memoryStore.GC Background 5 s = Some (s', e) ∧
    length (heap s) = 1%nat ∧ length (heap s') = 0%nat.
Proof.
  eexists _, _, _. split; [vm_compute; reflexivity|].
  split; [vm_compute; reflexivity|].
  split; [vm_compute; reflexivity|].
  split; vm_compute; reflexivity.
Qed.

(** ** The file store's read path *)

(** C6, as amended.  When the key's file exists, what [Get] answers to
    unreadable content depends on how the decoding fails: an error of the
    decoder is handed to the caller wrapped as a decoding error, and only a
    decoded value that is not a [*fileItem] is answered with
    [os.ErrNotExist].  A decoded [*fileItem] is answered with its value, or
    with [os.ErrNotExist] and an asynchronous [Delete] once it has expired;
    a nil [*fileItem] is dereferenced. *)
Theorem fileStore_Get_undecodable (sha1_hex : string → string) (s : fileStore.t)
    (fs : gmap string fileStore.node) (key : string) (content : list Byte.byte) :
  fs !! fileStore.filename sha1_hex s key = Some (fileStore.File content) →
  fileStore.Get sha1_hex s fs key =
  match fileStore.decoder s content with
  | (_, Some err) => Some (Nil, Some (ErrWrap err "decode"), None)
  | (fileStore.Other _, None) => Some (Nil, Some ErrNotExist, None)
  | (fileStore.PtrFileItem None, None) => None
  | (fileStore.PtrFileItem (Some item), None) =>
      if decide (fileStore.ExpiredAt item ≤ fileStore.nowFunc s)
      then Some (Nil, Some ErrNotExist, Some key)
      else Some (fileStore.Value item, None, None)
  end.
Proof.
  intros Hfile.
  unfold fileStore.Get, fileStore.isFile, fileStore.read, fileStore.ReadFile.
  rewrite Hfile. simpl.
  destruct (fileStore.decoder s content) as [v err].
  destruct v as [[item|]|v], err as [err|]; try done. simpl. unfold After.
  destruct (fileStore.nowFunc s <? fileStore.ExpiredAt item) eqn:Hlt; simpl.
  - apply Z.ltb_lt in Hlt. by rewrite decide_False by lia.
  - apply Z.ltb_ge in Hlt. by rewrite decide_True by lia.
Qed.

(** C6, as amended, at an empty file that the decoder rejects. *)
Lemma fileStore_Get_undecodable_witness :
  eof_disk !! fileStore.filename sha1_hex_k eof_store "k" = Some (fileStore.File []) ∧
  fileStore.Get sha1_hex_k eof_store eof_disk "k"
  = Some (Nil, Some (ErrWrap (ErrMsg "EOF") "decode"), None).
Proof.
  split; [by vm_compute|].
  apply (fileStore_Get_undecodable sha1_hex_k eof_store eof_disk "k" []).
  by vm_compute.
Defined.

(** C6, as stated, fails: on a file the decoder rejects, [Get] returns the
    wrapped error of the decoder, which is not [os.ErrNotExist]. *)
Lemma fileStore_Get_surfaces_decoding_error :
  ∃ err,
    fileStore.filename sha1_hex_k eof_store "k"
    = "cache/1/3/13fbd79c3d390e5d6585a21e11ff5ec1970cff0c" ∧
    eof_disk !! fileStore.filename sha1_hex_k eof_store "k" = Some (fileStore.File []) ∧
    (fileStore.decoder eof_store []).2 = Some (ErrMsg "EOF") ∧
    fileStore.Get sha1_hex_k eof_store eof_disk "k" = Some (Nil, Some err, None) ∧
    err = ErrWrap (ErrMsg "EOF") "decode" ∧ err ≠ ErrNotExist.
Proof.
  eexists. split; [by vm_compute|]. split; [by vm_compute|]. split; [done|].
  split; [vm_compute; reflexivity|]. split; [done|]. discriminate.
Qed.

(** ** The in-memory store: the heap *)

(** C7.  After any sequence of public operations (in particular any
    sequence of [Set] calls, and also between two rounds of a [GC]) the heap
    is a min-heap on the expiration instants: every slot is at or after its parent, the root is the
    earliest of all, and reading and removing the minimum until the heap is
    empty yields all the instants in non-decreasing order. *)
Theorem heap_is_min_heap_by_expiration (cs : list call) :
  ∃ s, run cs newMemoryStore = Some s ∧
    heap_ordered s ∧
    (∀ k, 0 ≤ k < memoryStore.Len s → exp_at s 0 ≤ exp_at s k) ∧
    ∃ l, drain (length (heap s)) s = Some l ∧ l ≡ₚ exps s ∧ StronglySorted Z.le l.
Proof.
  destruct (run_Inv cs newMemoryStore Inv_new) as (s & Hrun & HInv).
  exists s. pose proof HInv as (_ & _ & Hord).
  split_and!; [done|done|by apply ordered_root_min|by apply drain_spec].
Qed.

(** ** The GC scheduler *)

(** C8, as amended.  The goroutine calls [GC] exactly once before its first
    [select]; every wake-up that takes the tick is followed by exactly one
    more call, so the calls number one more than the ticks taken; once a
    wake-up takes the stop case only [ticker.Stop] and the return follow.
    If every [select] at which the stop channel can proceed takes the stop
    case, nothing else runs after the first such [select]. *)
Theorem startGC_trace {S : Type} (GC : S → S * option error)
    (wakes : list manager.wake) (store : S) :
  (∃ rest, (manager.startGC GC wakes store).2
           = manager.NewTicker :: manager.CallGC :: rest) ∧
  manager.calls (before_select (manager.startGC GC wakes store).2) = 1%nat ∧
  manager.calls (manager.startGC GC wakes store).2 = Datatypes.S (ticks_taken wakes) ∧
  after_stop (manager.startGC GC wakes store).2
  = (if existsb manager.takes_stop wakes
     then Some [manager.TickerStop; manager.Return] else None) ∧
  ((∀ w, w ∈ wakes → manager.stop_ready w = true → manager.takes_stop w = true) →
   ∀ post, manager.after_signal (manager.startGC GC wakes store).2 = Some post →
     post = [manager.TickerStop; manager.Return]).
Proof.
  pose proof (loop_head GC wakes store) as [rest Hhead].
  pose proof (loop_before_select GC wakes store) as Hfirst.
  pose proof (loop_calls GC wakes store) as Hcalls.
  pose proof (loop_after_stop GC wakes store) as Hstop.
  pose proof (loop_after_signal GC wakes store) as Hsignal.
  unfold manager.startGC.
  destruct (manager.loop GC wakes store) as [store' trace]. simpl in *.
  split_and!; [by exists rest; rewrite Hhead|done..].
Qed.

(** C8, as stated, fails: stop is signalled while the first cycle runs, a
    tick is due at that [select] and at the next one, and the runtime picks
    the tick both times; two more cycles run after the signal before the
    stop case is taken. *)
Lemma startGC_runs_cycles_after_signal :
  ∃ trace post,
    manager.stop_persists
      [manager.BothReady false; manager.BothReady false; manager.StopReady] = true ∧
    (manager.startGC (memory_GC 0)
       [manager.BothReady false; manager.BothReady false; manager.StopReady]
       newMemoryStore).2 = trace ∧
    manager.after_signal trace = Some post ∧
    post = [manager.CallGC; manager.Select (manager.BothReady false);
            manager.CallGC; manager.Select manager.StopReady;
            manager.TickerStop; manager.Return] ∧
    manager.calls post = 2%nat.
Proof.
  eexists _, _. split; [done|]. split; [vm_compute; reflexivity|].
  split; [vm_compute; reflexivity|]. split; [done|]. by vm_compute.
Qed.

(** ** The in-memory store: positions and lifetimes *)

(** C9.  After any sequence of public operations on a new store (also
    between two rounds of a [GC]), every key of the index map points at an item that sits in the heap slice at the
    position recorded in its own [index] field, and [Delete] of that key
    removes exactly that item from the heap and the key from the index. *)
Theorem index_field_is_heap_position (cs : list call) :
  ∃ s, run cs newMemoryStore = Some s ∧
    ∀ (k : string) (p : loc), index s !! k = Some p →
      ∃ it, objs s !! p = Some it ∧
        0 ≤ item_index it < memoryStore.Len s ∧
        slice_get (heap s) (item_index it) = Some p ∧
        ∃ s', memoryStore.Delete s k = Some (s', None) ∧
          heap s ≡ₚ p :: heap s' ∧ (p ∉ heap s') ∧ index s' !! k = None.
Proof.
  destruct (run_Inv cs newMemoryStore Inv_new) as (s & Hrun & HInv).
  exists s. split; [done|]. intros k p Hk.
  pose proof HInv as (Hpos & Hidx & _).
  destruct (Hidx _ _ Hk) as (Hp & it & Hit & _).
  destruct (heap_slot_of s p it Hpos Hp Hit) as [Hrange Hslot].
  exists it. split_and!; [done|lia|lia|done|].
  destruct (Delete_spec s k HInv) as (s' & Hdel & _ & Hindex & Hheap).
  rewrite Hk in Hheap. destruct Hheap as [Hperm _].
  exists s'. split_and!; [done|done| |].
  - pose proof (pos_ok_NoDup s Hpos) as Hnd. rewrite Hperm in Hnd.
    by apply NoDup_cons in Hnd as [? _].
  - rewrite Hindex. apply lookup_delete_eq.
Qed.

(** C10.  With a zero or negative lifetime [Set] succeeds, the entry it
    registers under the key expires at or before the current instant, and a
    [Get] of the key at the same instant returns nil and launches the
    asynchronous [Delete]. *)
Theorem Set_nonpositive_lifetime_is_expired (cs : list call) (now : time)
    (key : string) (value : any) (lifetime : Duration) :
  lifetime ≤ 0 →
  ∃ s s', run cs newMemoryStore = Some s ∧
    memoryStore.Set_ now s key value lifetime = Some (s', None) ∧
    (∃ p it, index s' !! key = Some p ∧ objs s' !! p = Some it ∧
       item_value it = value ∧ item_expiredAt it = now + lifetime ∧
       item_expiredAt it ≤ now) ∧
    memoryStore.Get now s' key = Some (s', Nil, Some key).
Proof.
  intros Hlife.
  destruct (run_Inv cs newMemoryStore Inv_new) as (s & Hrun & HInv).
  destruct (Set_spec now s key value lifetime HInv)
    as (s' & p & it & Hset & HInv' & _ & _ & Hindex & Hit & Himm & _).
  unfold imm, Add in Himm. injection Himm as Hkey Hval Hexp.
  assert (index s' !! key = Some p) as Hk by (rewrite Hindex; apply lookup_insert_eq).
  exists s, s'. split_and!; [done|done| |].
  - exists p, it. split_and!; [done..|lia].
  - destruct (Get_spec now s' key HInv') as (r & d & Hget & Hcase).
    rewrite Hk in Hcase. destruct Hcase as (it' & Hit' & _ & Hcase).
    assert (it' = it) as -> by congruence.
    rewrite decide_True in Hcase by lia. destruct Hcase as [-> ->]. done.
Qed.

(** C10 at the lifetime -5ns, on a store that already holds a live entry. *)
Lemma Set_nonpositive_lifetime_is_expired_witness :
  -5 ≤ 0 ∧
  ∃ s s', run [CallSet 3 "a" (Int 1) 60] newMemoryStore = Some s ∧
    memoryStore.Set_ 7 s "k" (Str "v") (-5) = Some (s', None) ∧
    (∃ p it, index s' !! "k" = Some p ∧ objs s' !! p = Some it ∧
       item_value it = Str "v" ∧ item_expiredAt it = 7 + -5 ∧
       item_expiredAt it ≤ 7) ∧
    memoryStore.Get 7 s' "k" = Some (s', Nil, Some "k").
Proof.
  split; [lia|].
  apply (Set_nonpositive_lifetime_is_expired
           [CallSet 3 "a" (Int 1) 60] 7 "k" (Str "v") (-5)).
  lia.
Defined.

(** * Further properties of the store *)

(** [GC] with a context that is never cancelled removes from the heap
    exactly the items whose expiration is at or before the current instant:
    the heap splits into the removed items, all expired and popped in
    non-decreasing order of expiration, and the items that stay, all of which
    expire later; no item's key, value or expiration changes. *)
Theorem GC_removes_exactly_the_expired_slots (cs : list call) (now : time) :
  ∃ s s' removed,
    run cs newMemoryStore = Some s ∧
    memoryStore.GC Background now s = Some (s', None) ∧
    GC_removed (S (length (heap s))) Background 0 now s = Some removed ∧
    heap s ≡ₚ removed ++ heap s' ∧
    same_items (objs s) (objs s') ∧
    Forall (λ p, exp_of (objs s) p ≤ now) removed ∧
    Forall (λ p, now < exp_of (objs s) p) (heap s') ∧
    StronglySorted Z.le (exp_of (objs s) <$> removed).
Proof.
  destruct (run_Inv cs newMemoryStore Inv_new) as (s & Hrun & HInv).
  destruct (GC_loop_spec (S (length (heap s))) 0 now s HInv)
    as (s' & removed & HGC & Hrem & _ & Hperm & Hsame & Hexp & Hlive & Hsorted & _); [lia|].
  exists s, s', removed. split_and!; try done.
  unfold memoryStore.GC. by rewrite HGC.
Qed.

(** On a store whose index map and heap are in bijection, [GC] keeps the
    bijection, unregisters every key whose entry has expired, and leaves
    every other key retrievable with its value. *)
Theorem GC_keeps_live_keys_retrievable (cs : list call) (now : time) :
  ∃ s s',
    run cs newMemoryStore = Some s ∧
    memoryStore.GC Background now s = Some (s', None) ∧
    (consistent s →
     consistent s' ∧
     ∀ (k : string) (p : loc) (it : memoryItem),
       index s !! k = Some p → objs s !! p = Some it →
       if decide (item_expiredAt it ≤ now)
       then index s' !! k = None ∧ memoryStore.Get now s' k = Some (s', Nil, None)
       else memoryStore.Get now s' k = Some (s', item_value it, None)).
Proof.
  destruct (run_Inv cs newMemoryStore Inv_new) as (s & Hrun & HInv).
  destruct (GC_loop_spec (S (length (heap s))) 0 now s HInv)
    as (s' & removed & HGC & _ & HInv' & Hperm & Hsame & Hexp & Hlive & _ & Hcons); [lia|].
  exists s, s'. split_and!; [done|unfold memoryStore.GC; by rewrite HGC|].
  intros Hc. pose proof (Hcons Hc) as Hc'. split; [done|].
  intros k p it Hk Hit.
  pose proof HInv as (Hpos & Hidx & _). pose proof HInv' as (Hpos' & Hidx' & _).
  destruct (Hidx _ _ Hk) as (Hp & it0 & Hit0 & Hkey).
  assert (it0 = it) as -> by congruence.
  assert (exp_of (objs s) p = item_expiredAt it) as Hexp_p.
  { unfold exp_of. by rewrite Hit. }
  destruct (Get_spec now s' k HInv') as (r & d & Hget & Hcase).
  case_decide as Hdead.
  - assert (index s' !! k = None) as Hgone.
    { destruct (index s' !! k) as [q|] eqn:Hq; [|done]. exfalso.
      destruct (Hidx' _ _ Hq) as (Hq' & itq' & Hitq' & Hkq').
      destruct (same_items_lookup_inv _ _ q itq' Hsame Hitq') as (itq & Hitq & Himm).
      destruct Hc as [_ Hslots].
      destruct (Hslots q) as (itq0 & Hitq0 & Hkq0).
      { rewrite Hperm. apply elem_of_app. by right. }
      assert (itq0 = itq) as -> by congruence.
      assert (item_key itq = k) as Hkq by (unfold imm in Himm; congruence).
      assert (q = p) as -> by congruence.
      rewrite Forall_forall in Hlive. specialize (Hlive p Hq'). lia. }
    rewrite Hgone in Hcase. destruct Hcase as [-> ->]. done.
  - assert (p ∈ heap s') as Hp'.
    { rewrite Hperm in Hp. apply elem_of_app in Hp as [Hp|Hp]; [|done]. exfalso.
      rewrite Forall_forall in Hexp. specialize (Hexp p Hp). lia. }
    destruct Hc' as [_ Hslots'].
    destruct (Hslots' p Hp') as (it' & Hit' & Hk').
    destruct (same_items_lookup _ _ p it Hsame Hit) as (it1 & Hit1 & Himm).
    assert (it1 = it') as -> by congruence.
    unfold imm in Himm.
    assert (item_key it' = k) as Hkey' by congruence.
    rewrite Hkey' in Hk'. rewrite Hk' in Hcase.
    destruct Hcase as (it2 & Hit2 & _ & Hcase).
    assert (it2 = it') as -> by congruence.
    rewrite decide_False in Hcase by (assert (item_expiredAt it' = item_expiredAt it) by congruence; lia).
    injection Himm as _ Hval _. destruct Hcase as [-> ->]. by rewrite Hget, Hval.
Qed.

Lemma consistent_new : consistent newMemoryStore.
Proof.
  split.
  - intros k p Hk. simpl in Hk. by rewrite lookup_empty in Hk.
  - intros p Hp. simpl in Hp. by apply elem_of_nil in Hp.
Qed.

Lemma GC_round_consistent (now : time) (s s' : memoryStore) (fin : bool) :
  Inv s → memoryStore.GC_round now s = Some (s', fin) →
  consistent s → consistent s'.
Proof.
  intros HInv Hround Hcons.
  destruct (GC_round_spec now s HInv) as (s1 & fin1 & Hround1 & HInv1 & Hcase).
  rewrite Hround in Hround1. injection Hround1 as <- <-.
  destruct fin; [by destruct Hcase as [-> _]|].
  destruct Hcase as (c & it & _ & Hit & _ & Hperm & Hsame & Hindex).
  by eapply (Remove_consistent s s' c it).
Qed.

Lemma GC_loop_consistent (fuel : nat) (ctx : Context) (polls : nat) (now : time)
    (s s' : memoryStore) :
  Inv s → memoryStore.GC_loop fuel ctx polls now s = Some s' →
  consistent s → consistent s'.
Proof.
  revert s polls. induction fuel as [|fuel IH]; intros s polls HInv; [done|].
  simpl. destruct (ctx polls); [by intros [= <-]|].
  destruct (GC_round_spec now s HInv) as (s1 & fin & Hround & HInv1 & _).
  rewrite Hround. simpl. intros Hloop Hcons.
  pose proof (GC_round_consistent now s s1 fin HInv Hround Hcons) as Hcons1.
  destruct fin; [by injection Hloop as <-|].
  exact (IH s1 (S polls) HInv1 Hloop Hcons1).
Qed.

(** The bijection between the index map and the heap holds on the new
    store and is kept by every call other than a [Set] of a key that is
    already in the index map; where it holds the two structures have the
    same number of entries. *)
Theorem bijection_kept_unless_key_rewritten (cs : list call) (c : call) :
  consistent newMemoryStore ∧
  ∃ s s',
    run cs newMemoryStore = Some s ∧ exec c s = Some s' ∧
    (consistent s →
     match c with
     | CallSet _ key _ _ => index s !! key = None
     | _ => True
     end →
     consistent s' ∧ size (index s') = length (heap s')).
Proof.
  split; [apply consistent_new|].
  destruct (run_Inv cs newMemoryStore Inv_new) as (s & Hrun & HInv).
  destruct (exec_Inv c s HInv) as (s' & Hexec & HInv').
  exists s, s'. split_and!; [done|done|].
  intros Hcons Hfresh.
  assert (consistent s') as Hcons'; [|split; [done|by apply consistent_size]].
  destruct c as [now key|now key value lifetime|key| |ctx now|now]; unfold exec in Hexec.
  - destruct (Get_spec now s key HInv) as (r & d & Hget & _).
    rewrite Hget in Hexec. simpl in Hexec. by injection Hexec as <-.
  - destruct (Set_spec now s key value lifetime HInv)
      as (s1 & p & it & Hset & _ & Hnew & Hperm & Hindex & Hit & Himm & Hold).
    rewrite Hset in Hexec. simpl in Hexec. injection Hexec as <-.
    eapply (Set_consistent now s s1 key p it); try done.
    unfold imm in Himm. congruence.
  - destruct (Delete_spec s key HInv) as (s1 & Hdel & _ & Hindex & Hheap).
    rewrite Hdel in Hexec. simpl in Hexec. injection Hexec as <-.
    destruct (index s !! key) as [p|] eqn:Hk; [|by subst].
    destruct Hheap as [Hperm Hsame].
    pose proof HInv as (_ & Hidx & _).
    destruct (Hidx _ _ Hk) as (_ & it & Hit & Hkey).
    eapply (Remove_consistent s s1 p it); try done. by rewrite Hkey.
  - simpl in Hexec. injection Hexec as <-. split.
    + intros k p Hk. simpl in Hk. by rewrite lookup_empty in Hk.
    + intros p Hp. simpl in Hp. by apply elem_of_nil in Hp.
  - unfold memoryStore.GC in Hexec.
    destruct (memoryStore.GC_loop (S (length (heap s))) ctx 0 now s) as [s1|] eqn:Hloop;
      [|done].
    simpl in Hexec. injection Hexec as <-.
    exact (GC_loop_consistent _ ctx 0 now s s1 HInv Hloop Hcons).
  - destruct (memoryStore.GC_round now s) as [[s1 fin]|] eqn:Hround; [|done].
    simpl in Hexec. injection Hexec as <-.
    exact (GC_round_consistent now s s1 fin HInv Hround Hcons).
Qed.

(** [Set] always adds one slot to the heap and makes the key answer with
    the new value until the new expiration; the other keys of the index map
    are left as they were. *)
Theorem Set_registers_value_and_expiry (cs : list call) (now : time) (key : string)
    (value : any) (lifetime : Duration) (later : time) :
  ∃ s s',
    run cs newMemoryStore = Some s ∧
    memoryStore.Set_ now s key value lifetime = Some (s', None) ∧
    length (heap s') = S (length (heap s)) ∧
    memoryStore.Get later s' key =
      (if decide (now + lifetime ≤ later) then Some (s', Nil, Some key)
       else Some (s', value, None)) ∧
    ∀ k, k ≠ key → index s' !! k = index s !! k.
Proof.
  destruct (run_Inv cs newMemoryStore Inv_new) as (s & Hrun & HInv).
  destruct (Set_spec now s key value lifetime HInv)
    as (s' & p & it & Hset & HInv' & _ & Hperm & Hindex & Hit & Himm & _).
  unfold imm, Add in Himm. injection Himm as Hkey Hval Hexp.
  exists s, s'. split_and!; [done|done|by rewrite Hperm| |].
  - destruct (Get_spec later s' key HInv') as (r & d & Hget & Hcase).
    rewrite Hindex, lookup_insert_eq in Hcase.
    destruct Hcase as (it' & Hit' & _ & Hcase).
    assert (it' = it) as -> by congruence. rewrite Hexp in Hcase.
    case_decide; destruct Hcase as [-> ->]; by rewrite Hget, ?Hval.
  - intros k Hk. by rewrite Hindex, lookup_insert_ne.
Qed.

(** [Delete] takes the key out of the index map and leaves a store without
    the key unchanged, so it can be repeated; a [Get] of the key afterwards
    returns nil. *)
Theorem Delete_unregisters_key (cs : list call) (key : string) (now : time) :
  ∃ s s',
    run cs newMemoryStore = Some s ∧
    memoryStore.Delete s key = Some (s', None) ∧
    index s' = delete key (index s) ∧
    (index s !! key = None → s' = s) ∧
    memoryStore.Delete s' key = Some (s', None) ∧
    memoryStore.Get now s' key = Some (s', Nil, None).
Proof.
  destruct (run_Inv cs newMemoryStore Inv_new) as (s & Hrun & HInv).
  destruct (Delete_spec s key HInv) as (s' & Hdel & HInv' & Hindex & Hheap).
  assert (index s' !! key = None) as Hgone by (rewrite Hindex; apply lookup_delete_eq).
  exists s, s'. split_and!; [done|done|done| | |].
  - intros Hk. by rewrite Hk in Hheap.
  - unfold memoryStore.Delete. by rewrite Hgone.
  - unfold memoryStore.Get. by rewrite Hgone.
Qed.

(** [Flush] leaves an empty heap and an empty index map: every [Get]
    returns nil and [GC] finds nothing to remove. *)
Theorem Flush_empties_store (cs : list call) (key : string) (now : time) :
  ∃ s s',
    run cs newMemoryStore = Some s ∧
    memoryStore.Flush s = Some (s', None) ∧
    heap s' = [] ∧ index s' = ∅ ∧
    memoryStore.Get now s' key = Some (s', Nil, None) ∧
    memoryStore.GC Background now s' = Some (s', None).
Proof.
  destruct (run_Inv cs newMemoryStore Inv_new) as (s & Hrun & HInv).
  exists s. eexists. split_and!; [done|done|done|done|done|done].
Qed.

(** ** The repository's tests of the in-memory store *)

(** [TestMemoryStore], with the clock at 0: a value that was set is read
    back; after [Delete], and after [Flush], the key reads nil. *)
Example TestMemoryStore :
  ∃ s1 s2 s3 s4,
    memoryStore.Set_ 0 newMemoryStore "username" (Str "flamego") Minute
      = Some (s1, None) ∧
    memoryStore.Get 0 s1 "username" = Some (s1, Str "flamego", None) ∧
    memoryStore.Delete s1 "username" = Some (s2, None) ∧
    memoryStore.Get 0 s2 "username" = Some (s2, Nil, None) ∧
    memoryStore.Set_ 0 s2 "random" (Str "value") Minute = Some (s3, None) ∧
    memoryStore.Flush s3 = Some (s4, None) ∧
    memoryStore.Get 0 s4 "random" = Some (s4, Nil, None).
Proof.
  eexists _, _, _, _.
  split; [vm_compute; reflexivity|].
  split; [vm_compute; reflexivity|].
  split; [vm_compute; reflexivity|].
  split; [vm_compute; reflexivity|].
  split; [vm_compute; reflexivity|].
  split; vm_compute; reflexivity.
Qed.

(** [TestMemoryStore_GC]: three entries of 1, 2 and 3 seconds; two seconds
    later the first reads nil, and after [GC] one entry is left, whether the
    [Delete] launched by the read runs before [GC] or after it. *)
Example TestMemoryStore_GC :
  ∃ s s1 s2,
    run [CallSet 0 "1" (Str "1") Second; CallSet 0 "2" (Str "2") (2 * Second);
         CallSet 0 "3" (Str "3") (3 * Second)] newMemoryStore = Some s ∧
    memoryStore.Get (2 * Second) s "1" = Some (s, Nil, Some "1") ∧
    run [CallGC Background (2 * Second); CallDelete "1"] s = Some s1 ∧
    run [CallDelete "1"; CallGC Background (2 * Second)] s = Some s2 ∧
    memoryStore.Len s1 = 1 ∧ memoryStore.Len s2 = 1.
Proof.
  eexists _, _, _.
  split; [vm_compute; reflexivity|].
  split; [vm_compute; reflexivity|].
  split; [vm_compute; reflexivity|].
  split; [vm_compute; reflexivity|].
  split; vm_compute; reflexivity.
Qed.

(** * Further properties of the in-memory store and of the scheduler *)

(** ** [GC] and its context *)

Lemma GC_loop_ctx_spec (fuel : nat) (ctx : Context) (polls : nat) (now : time)
    (s : memoryStore) :
  Inv s → (length (heap s) < fuel)%nat →
  ∃ s' removed,
    memoryStore.GC_loop fuel ctx polls now s = Some s' ∧ Inv s' ∧
    heap s ≡ₚ removed ++ heap s' ∧ same_items (objs s) (objs s') ∧
    Forall (λ p, exp_of (objs s) p ≤ now) removed ∧
    (∀ i, (i < length removed)%nat → ctx (polls + i)%nat = false) ∧
    (ctx (polls + length removed)%nat = true ∨
     Forall (λ p, now < exp_of (objs s) p) (heap s')) ∧
    (removed = [] → s' = s).
Proof.
  revert s polls. induction fuel as [|fuel IH]; intros s polls HInv Hfuel; [lia|].
  simpl. destruct (ctx polls) eqn:Hctx.
  { exists s, []. simpl. rewrite Nat.add_0_r.
    split_and!; [done|done|done|done|constructor|intros i Hi; lia|by left|done]. }
  destruct (GC_round_spec now s HInv) as (s1 & fin & -> & HInv1 & Hround). simpl.
  destruct fin.
  { destruct Hround as [-> Hlive]. exists s, []. simpl.
    split_and!; [done|done|done|done|constructor|intros i Hi; lia|by right|done]. }
  destruct Hround as (c & it & Hc & Hit & Hdead & Hperm & Hsame & Hindex).
  destruct (IH s1 (S polls) HInv1)
    as (s' & removed & -> & HInv' & Hperm' & Hsame' & Hexp & Hpolls & Hend & _).
  { apply Permutation_length in Hperm. simpl in Hperm. lia. }
  assert (∀ q, exp_of (objs s1) q = exp_of (objs s) q) as Hexp1.
  { intros q. by apply exp_of_same. }
  exists s', (c :: removed). simpl. split_and!; [done|done|..|done].
  - by rewrite Hperm, Hperm'.
  - by eapply same_items_trans.
  - constructor.
    + unfold exp_of. rewrite Hit. simpl. lia.
    + eapply Forall_impl; [done|]. intros q. simpl. by rewrite Hexp1.
  - intros [|i] Hi; [by rewrite Nat.add_0_r|].
    replace (polls + S i)%nat with (S polls + i)%nat by lia. apply Hpolls. lia.
  - replace (polls + S (length removed))%nat with (S polls + length removed)%nat by lia.
    destruct Hend as [Hend|Hend]; [by left|right].
    eapply Forall_impl; [done|]. intros q. simpl. by rewrite Hexp1.
Qed.

(** Whatever its context, [GC] removes only expired items, one per round,
    and each round begins by polling the context: the items removed number
    the polls that found the context live, the store is untouched when the
    first poll finds it done, and an expired item is left behind only when
    a poll found the context done. *)
Theorem GC_stops_early_only_when_cancelled (cs : list call) (ctx : Context)
    (now : time) :
  ∃ s s' removed,
    run cs newMemoryStore = Some s ∧
    memoryStore.GC ctx now s = Some (s', None) ∧
    heap s ≡ₚ removed ++ heap s' ∧
    same_items (objs s) (objs s') ∧
    Forall (λ p, exp_of (objs s) p ≤ now) removed ∧
    (∀ i, (i < length removed)%nat → ctx i = false) ∧
    (ctx (length removed) = true ∨ Forall (λ p, now < exp_of (objs s) p) (heap s')) ∧
    (ctx 0%nat = true → s' = s).
Proof.
  destruct (run_Inv cs newMemoryStore Inv_new) as (s & Hrun & HInv).
  destruct (GC_loop_ctx_spec (S (length (heap s))) ctx 0 now s HInv)
    as (s' & removed & HGC & _ & Hperm & Hsame & Hexp & Hpolls & Hend & Hnil); [lia|].
  exists s, s', removed. split_and!; try done.
  - unfold memoryStore.GC. by rewrite HGC.
  - intros Hdone. apply Hnil. destruct removed as [|c removed]; [done|].
    specialize (Hpolls 0%nat). simpl in Hpolls. rewrite Hpolls in Hdone; [done|lia].
Qed.

Lemma GC_round_live (now : time) (s : memoryStore) :
  Inv s → Forall (λ p, now < exp_of (objs s) p) (heap s) →
  memoryStore.GC_round now s = Some (s, true).
Proof.
  intros HInv Hlive.
  destruct (GC_round_spec now s HInv) as (s' & fin & Hround & _ & Hcase).
  destruct fin; [by destruct Hcase as [-> _]|]. exfalso.
  destruct Hcase as (c & it & Hc & Hit & Hdead & _).
  rewrite Forall_forall in Hlive. specialize (Hlive c).
  unfold exp_of in Hlive. rewrite Hit in Hlive. simpl in Hlive.
  assert (c ∈ heap s) as Hin.
  { rewrite slice_get_lookup in Hc by lia. by eapply list_elem_of_lookup_2. }
  specialize (Hlive Hin). lia.
Qed.

(** A second [GC] finds nothing to do: after a [GC] that ran to its end at
    the instant [now], a [GC] at that instant or at any earlier one leaves
    the store exactly as it is. *)
Theorem GC_again_removes_nothing (cs : list call) (now earlier : time) :
  ∃ s s',
    run cs newMemoryStore = Some s ∧
    memoryStore.GC Background now s = Some (s', None) ∧
    memoryStore.GC Background now s' = Some (s', None) ∧
    (earlier ≤ now → memoryStore.GC Background earlier s' = Some (s', None)).
Proof.
  destruct (run_Inv cs newMemoryStore Inv_new) as (s & Hrun & HInv).
  destruct (GC_loop_spec (S (length (heap s))) 0 now s HInv)
    as (s' & removed & HGC & _ & HInv' & _ & Hsame & _ & Hlive & _); [lia|].
  assert (∀ t, t ≤ now → memoryStore.GC Background t s' = Some (s', None)) as Hagain.
  { intros t Ht. unfold memoryStore.GC. simpl.
    rewrite (GC_round_live t s' HInv'); [done|].
    eapply Forall_impl; [done|]. intros q Hq. simpl in Hq.
    rewrite (exp_of_same _ _ q Hsame). lia. }
  exists s, s'. split_and!; [done|unfold memoryStore.GC; by rewrite HGC| |].
  - by apply Hagain.
  - exact (Hagain earlier).
Qed.

(** ** How [Set], [Delete] and [Get] compose *)

Lemma Get_frame (later : time) (s s' : memoryStore) (k : string) (r : any)
    (d : option string) :
  index s' !! k = index s !! k →
  (∀ q, index s !! k = Some q → imm <$> objs s' !! q = imm <$> objs s !! q) →
  memoryStore.Get later s k = Some (s, r, d) →
  memoryStore.Get later s' k = Some (s', r, d).
Proof.
  intros Hindex Hitems. unfold memoryStore.Get. rewrite Hindex.
  destruct (index s !! k) as [q|]; [|by intros [= <- <-]].
  specialize (Hitems q eq_refl).
  destruct (objs s !! q) as [it|], (objs s' !! q) as [it'|]; simplify_eq/=; [|done].
  replace (item_value it') with (item_value it) by done.
  replace (item_expiredAt it') with (item_expiredAt it) by done.
  destruct (negb (Before later (item_expiredAt it))); by intros [= <- <-].
Qed.

(** [Set] and [Delete] of one key leave every other key as it was: what
    [Get] answers for another key, at any instant, is the same before and
    after. *)
Theorem Set_and_Delete_leave_other_keys (cs : list call) (now : time) (key : string)
    (value : any) (lifetime : Duration) (other : string) (later : time) :
  other ≠ key →
  ∃ s s1 s2 r d,
    run cs newMemoryStore = Some s ∧
    memoryStore.Set_ now s key value lifetime = Some (s1, None) ∧
    memoryStore.Delete s key = Some (s2, None) ∧
    memoryStore.Get later s other = Some (s, r, d) ∧
    memoryStore.Get later s1 other = Some (s1, r, d) ∧
    memoryStore.Get later s2 other = Some (s2, r, d).
Proof.
  intros Hne.
  destruct (run_Inv cs newMemoryStore Inv_new) as (s & Hrun & HInv).
  pose proof HInv as (Hpos & Hidx & _).
  destruct (Set_spec now s key value lifetime HInv)
    as (s1 & p & it & Hset & _ & _ & _ & Hindex1 & _ & _ & Hold).
  destruct (Delete_spec s key HInv) as (s2 & Hdel & _ & Hindex2 & Hheap).
  destruct (Get_spec later s other HInv) as (r & d & Hget & _).
  exists s, s1, s2, r, d. split_and!; [done..| |].
  - apply (Get_frame later s s1 other r d); [|intros q Hq|done].
    + by rewrite Hindex1, lookup_insert_ne.
    + apply Hold. by destruct (Hidx _ _ Hq).
  - apply (Get_frame later s s2 other r d); [|intros q Hq|done].
    + by rewrite Hindex2, lookup_delete_ne.
    + destruct (index s !! key) as [p'|]; [|by subst].
      destruct Hheap as [_ Hsame]. apply Hsame.
Qed.

(** The frame property at two keys of a store with a live entry. *)
Lemma Set_and_Delete_leave_other_keys_witness :
  "a" ≠ "k" ∧
  ∃ s s1 s2 r d,
    run [CallSet 3 "a" (Int 1) 60; CallSet 3 "k" (Int 2) 60] newMemoryStore = Some s ∧
    memoryStore.Set_ 7 s "k" (Str "v") 5 = Some (s1, None) ∧
    memoryStore.Delete s "k" = Some (s2, None) ∧
    memoryStore.Get 9 s "a" = Some (s, r, d) ∧
    memoryStore.Get 9 s1 "a" = Some (s1, r, d) ∧
    memoryStore.Get 9 s2 "a" = Some (s2, r, d).
Proof.
  split; [done|].
  apply (Set_and_Delete_leave_other_keys
           [CallSet 3 "a" (Int 1) 60; CallSet 3 "k" (Int 2) 60] 7 "k" (Str "v") 5 "a" 9).
  done.
Defined.

(** A [Delete] that follows a [Set] of the same key removes the item just
    written and no other: the heap holds the items it held before the
    [Set], unchanged, and the key is out of the index map. *)
Theorem Delete_after_Set_restores_heap (cs : list call) (now : time) (key : string)
    (value : any) (lifetime : Duration) :
  ∃ s s1 s2,
    run cs newMemoryStore = Some s ∧
    memoryStore.Set_ now s key value lifetime = Some (s1, None) ∧
    memoryStore.Delete s1 key = Some (s2, None) ∧
    heap s2 ≡ₚ heap s ∧
    (∀ q, q ∈ heap s → imm <$> objs s2 !! q = imm <$> objs s !! q) ∧
    index s2 = delete key (index s).
Proof.
  destruct (run_Inv cs newMemoryStore Inv_new) as (s & Hrun & HInv).
  destruct (Set_spec now s key value lifetime HInv)
    as (s1 & p & it & Hset & HInv1 & _ & Hperm1 & Hindex1 & _ & _ & Hold).
  destruct (Delete_spec s1 key HInv1) as (s2 & Hdel & _ & Hindex2 & Hheap).
  rewrite Hindex1, lookup_insert_eq in Hheap. destruct Hheap as [Hperm2 Hsame].
  exists s, s1, s2. split_and!; [done|done|done| | |].
  - rewrite Hperm2 in Hperm1. by apply Permutation_cons_inv in Hperm1.
  - intros q Hq. rewrite (Hsame q). by apply Hold.
  - rewrite Hindex2, Hindex1. apply delete_insert_eq.
Qed.

(** ** The scheduler's failure sink *)

Lemma GC_times_S {S : Type} (GC : S → S * option error) (n : nat) (store : S) :
  GC_times GC (Datatypes.S n) store
  = ((GC_times GC n (GC store).1).1, (GC store).2 :: (GC_times GC n (GC store).1).2).
Proof.
  simpl. destruct (GC store) as [store' err]. simpl.
  by destruct (GC_times GC n store').
Qed.

Lemma loop_reported {S : Type} (GC : S → S * option error) (wakes : list manager.wake)
    (store : S) :
  (manager.loop GC wakes store).1 = (GC_times GC (Datatypes.S (ticks_taken wakes)) store).1 ∧
  reported (manager.loop GC wakes store).2
  = omap id (GC_times GC (Datatypes.S (ticks_taken wakes)) store).2.
Proof.
  revert store. induction wakes as [|w wakes IH]; intros store.
  - simpl. destruct (GC store) as [store' [err|]]; done.
  - cbn [manager.loop ticks_taken].
    destruct (manager.takes_stop w) eqn:Hw.
    + simpl. destruct (GC store) as [store' [err|]]; done.
    + rewrite GC_times_S. destruct (GC store) as [store' err].
      specialize (IH store').
      destruct (manager.loop GC wakes store') as [store'' rest].
      cbn [fst snd] in *. destruct IH as [-> IH].
      split; [done|]. destruct err as [err|]; simpl; by rewrite IH.
Qed.

(** The goroutine hands every non-nil result of [GC] to [errFunc], once and
    in order, and goes on: the store it leaves is the one that a [GC] before
    the first [select] and one [GC] per tick taken leave, whether or not any
    of them failed. *)
Theorem startGC_reports_every_failure {S : Type} (GC : S → S * option error)
    (wakes : list manager.wake) (store : S) :
  (manager.startGC GC wakes store).1
  = (GC_times GC (Datatypes.S (ticks_taken wakes)) store).1 ∧
  reported (manager.startGC GC wakes store).2
  = omap id (GC_times GC (Datatypes.S (ticks_taken wakes)) store).2.
Proof.
  pose proof (loop_reported GC wakes store) as [Hstore Hrep].
  unfold manager.startGC.
  destruct (manager.loop GC wakes store) as [store' trace]. done.
Qed.

Lemma timed_GC_times (clock : nat → time) (n i : nat) (s : memoryStore) :
  Inv s →
  ∃ s', GC_times (timed_GC clock) n (i, s)
        = (((i + n)%nat, s'), replicate n None) ∧
    run (GC_calls clock i n) s = Some s' ∧ Inv s'.
Proof.
  revert i s. induction n as [|n IH]; intros i s HInv.
  - exists s. simpl. by rewrite Nat.add_0_r.
  - destruct (GC_Inv Background (clock i) s HInv) as (s1 & HGC & HInv1).
    destruct (IH (Datatypes.S i) s1 HInv1) as (s' & Htimes & Hrun & HInv').
    exists s'. cbn [GC_times GC_calls run exec].
    unfold timed_GC at 1, memory_GC. simpl. rewrite HGC. simpl.
    rewrite Htimes. split_and!; [|done|done].
    by replace (i + Datatypes.S n)%nat with (Datatypes.S i + n)%nat by lia.
Qed.

(** Over the in-memory store the failure sink is never called: whatever the
    store holds, however the clock moves between the cycles and whenever the
    ticks and the stop signal arrive, no [GC] of the goroutine fails, and
    the store it leaves is the one left by that many [GC] calls. *)
Theorem startGC_over_memory_never_reports (cs : list call) (clock : nat → time)
    (wakes : list manager.wake) :
  ∃ s s',
    run cs newMemoryStore = Some s ∧
    reported (manager.startGC (timed_GC clock) wakes (0%nat, s)).2 = [] ∧
    (manager.startGC (timed_GC clock) wakes (0%nat, s)).1
    = (Datatypes.S (ticks_taken wakes), s') ∧
    run (GC_calls clock 0 (Datatypes.S (ticks_taken wakes))) s = Some s'.
Proof.
  destruct (run_Inv cs newMemoryStore Inv_new) as (s & Hrun & HInv).
  destruct (timed_GC_times clock (Datatypes.S (ticks_taken wakes)) 0 s HInv)
    as (s' & Htimes & Hcalls & _).
  pose proof (loop_reported (timed_GC clock) wakes (0%nat, s)) as [Hstore Hrep].
  rewrite Htimes in Hstore, Hrep. simpl in Hstore, Hrep.
  exists s, s'. unfold manager.startGC.
  destruct (manager.loop (timed_GC clock) wakes (0%nat, s)) as [store' trace].
  simpl in *. split_and!; [done| |done|done].
  rewrite Hrep. clear. induction (ticks_taken wakes) as [|n IH]; [done|].
  simpl. done.
Qed.

(** * The file store's write path *)

(** ** Paths *)




Lemma filename_at_time (sha1_hex : string → string) (s : fileStore.t) (now : time)
    (key : string) :
  fileStore.filename sha1_hex (at_time s now) key = fileStore.filename sha1_hex s key.
Proof. done. Qed.

Lemma length_list_ascii (path : string) :
  length (String.list_ascii_of_string path) = String.length path.
Proof. induction path as [|x path IH]; simpl; [done|by rewrite IH]. Qed.

Lemma skip_length (f : Ascii.ascii → bool) (l : list Ascii.ascii) :
  (length (filepath.skip f l) ≤ length l)%nat.
Proof.
  induction l as [|c l IH]; simpl; [done|].
  destruct (f c); simpl; lia.
Qed.

Lemma length_substring_le (n : nat) (path : string) :
  (String.length (String.substring 0 n path) ≤ n)%nat.
Proof.
  revert path. induction n as [|n IH]; intros [|x path]; simpl; try lia.
  specialize (IH path). lia.
Qed.

Lemma Dir_fixed (path : string) :
  filepath.Dir path = path → path = "."%string ∨ path = "/"%string.
Proof.
  unfold filepath.Dir.
  pose proof (skip_length (λ c, negb (filepath.IsPathSeparator c))
                (reverse (String.list_ascii_of_string path))) as Hj.
  rewrite length_reverse, length_list_ascii in Hj.
  destruct (length _) as [|[|i]]; [by left; done|by right|].
  intros Heq. pose proof (length_substring_le (S i) path) as Hlen.
  rewrite Heq in Hlen. lia.
Qed.

(** ** [os.MkdirAll] *)

Lemma grows_refl (fs : gmap string fileStore.node) : grows fs fs.
Proof. intros p. by left. Qed.

Lemma grows_trans (fs1 fs2 fs3 : gmap string fileStore.node) : grows fs1 fs2 → grows fs2 fs3 → grows fs1 fs3.
Proof.
  intros H12 H23 p. destruct (H12 p) as [H1|[H1 H1']], (H23 p) as [H2|[H2 H2']].
  - left. congruence.
  - right. split; congruence.
  - right. split; congruence.
  - congruence.
Qed.

Lemma grows_file_at (fs fs' : gmap string fileStore.node) (p : string) : grows fs fs' → file_at fs' p = file_at fs p.
Proof.
  intros Hg. unfold file_at. destruct (Hg p) as [->|[-> ->]]; done.
Qed.

Lemma Stat_None (fs : gmap string fileStore.node) (path : string) :
  os.Stat fs path = None → fs !! path = None.
Proof. unfold os.Stat. by case_decide. Qed.

Lemma Mkdir_grows (fs : gmap string fileStore.node) (path : string) : grows fs (os.Mkdir fs path).1.
Proof.
  unfold os.Mkdir. destruct (os.Stat fs path) eqn:Hstat; [apply grows_refl|].
  apply Stat_None in Hstat.
  destruct (os.Stat fs (filepath.Dir path)) as [[c|]|]; simpl; try apply grows_refl.
  intros p. destruct (decide (p = path)) as [->|Hne].
  - right. by rewrite lookup_insert_eq.
  - left. by rewrite lookup_insert_ne.
Qed.

Lemma MkdirAll_loop_spec (fuel : nat) (fs : gmap string fileStore.node) (path : string) :
  (String.length path < fuel)%nat →
  ∃ fs' err, os.MkdirAll_loop fuel fs path = Some (fs', err) ∧ grows fs fs'.
Proof.
  revert fs path. induction fuel as [|fuel IH]; intros fs path Hfuel; [lia|].
  simpl. destruct (os.Stat fs path) as [[c|]|]; [by eexists _, _; split; [|apply grows_refl]..|].
  set (j := length _).
  assert (∃ fs1 err1,
    (if decide (1 < j)%nat
     then os.MkdirAll_loop fuel fs (String.substring 0 (j - 1) path)
     else Some (fs, None)) = Some (fs1, err1) ∧ grows fs fs1) as (fs1 & err1 & -> & Hg1).
  { case_decide as Hj; [|by eexists _, _; split; [|apply grows_refl]].
    apply IH.
    pose proof (length_substring_le (j - 1) path) as Hsub.
    assert (j ≤ String.length path)%nat; [|lia].
    unfold j.
    etrans; [apply skip_length|]. etrans; [apply skip_length|].
    by rewrite length_reverse, length_list_ascii. }
  simpl. destruct err1 as [err1|]; [by eexists _, _|].
  pose proof (Mkdir_grows fs1 path) as Hg2.
  destruct (os.Mkdir fs1 path) as [fs2 [err2|]]; simpl in Hg2.
  - destruct (os.Stat fs2 path) as [[c|]|]; eexists _, _;
      (split; [done|by eapply grows_trans]).
  - eexists _, _. split; [done|by eapply grows_trans].
Qed.

Lemma MkdirAll_spec (fs : gmap string fileStore.node) (path : string) :
  ∃ fs' err, os.MkdirAll fs path = Some (fs', err) ∧ grows fs fs'.
Proof. apply MkdirAll_loop_spec. lia. Qed.

Lemma MkdirAll_existing (fs : gmap string fileStore.node) (path : string) :
  os.Stat fs path = Some fileStore.Dir → os.MkdirAll fs path = Some (fs, None).
Proof. intros Hstat. unfold os.MkdirAll. simpl. by rewrite Hstat. Qed.

(** ** [Get] as a function of the key's file *)

Lemma Get_file_at (sha1_hex : string → string) (s : fileStore.t)
    (fs fs' : gmap string fileStore.node) (key : string) :
  file_at fs' (fileStore.filename sha1_hex s key)
  = file_at fs (fileStore.filename sha1_hex s key) →
  fileStore.Get sha1_hex s fs' key = fileStore.Get sha1_hex s fs key.
Proof.
  unfold fileStore.Get, fileStore.isFile, fileStore.read, fileStore.ReadFile, file_at.
  destruct (fs !! fileStore.filename sha1_hex s key) as [[c|]|],
    (fs' !! fileStore.filename sha1_hex s key) as [[c'|]|]; intros Heq; simplify_eq; done.
Qed.


Lemma Get_item (sha1_hex : string → string) (s : fileStore.t)
    (fs : gmap string fileStore.node) (key : string) (content : list Byte.byte)
    (item : fileStore.fileItem) :
  fs !! fileStore.filename sha1_hex s key = Some (fileStore.File content) →
  fileStore.decoder s content = (fileStore.PtrFileItem (Some item), None) →
  fileStore.Get sha1_hex s fs key =
  if decide (fileStore.ExpiredAt item ≤ fileStore.nowFunc s)
  then Some (Nil, Some ErrNotExist, Some key)
  else Some (fileStore.Value item, None, None).
Proof.
  intros Hfile Hdec.
  unfold fileStore.Get, fileStore.isFile, fileStore.read, fileStore.ReadFile.
  rewrite Hfile. simpl. rewrite Hdec. simpl. unfold After.
  destruct (fileStore.nowFunc s <? fileStore.ExpiredAt item) eqn:Hlt; simpl.
  - apply Z.ltb_lt in Hlt. by rewrite decide_False by lia.
  - apply Z.ltb_ge in Hlt. by rewrite decide_True by lia.
Qed.

(** ** [Set] *)

Lemma fileStore_Set_spec (sha1_hex : string → string) (encoder : Encoder)
    (s : fileStore.t) (fs : gmap string fileStore.node) (key : string) (value : any)
    (lifetime : Duration) :
  ∃ fs' err,
    fileStore_Set sha1_hex encoder s fs key value lifetime = Some (fs', err) ∧
    (∀ p, p ≠ fileStore.filename sha1_hex s key → file_at fs' p = file_at fs p) ∧
    (err = None →
     ∃ fs1 binary,
       encoder {| fileStore.Value := value;
                  fileStore.ExpiredAt := Add (fileStore.nowFunc s) lifetime |}
       = (binary, None) ∧
       grows fs fs1 ∧
       os.Stat fs1 (fileStore.filename sha1_hex s key) ≠ Some fileStore.Dir ∧
       os.Stat fs1 (filepath.Dir (fileStore.filename sha1_hex s key))
       = Some fileStore.Dir ∧
       fs' = <[fileStore.filename sha1_hex s key := fileStore.File binary]> fs1).
Proof.
  unfold fileStore_Set.
  destruct (encoder _) as [binary [e|]]; [by eexists _, _|].
  destruct (MkdirAll_spec fs (filepath.Dir (fileStore.filename sha1_hex s key)))
    as (fs1 & err1 & -> & Hg). simpl.
  destruct err1 as [err1|].
  { eexists _, _. split_and!; [done| |done]. intros p _. by apply grows_file_at. }
  unfold os.WriteFile.
  destruct (os.Stat fs1 (fileStore.filename sha1_hex s key)) as [[c|]|] eqn:Hstat;
    destruct (os.Stat fs1 (filepath.Dir (fileStore.filename sha1_hex s key)))
      as [[c'|]|] eqn:Hdir;
    eexists _, _; (split; [done|]); split;
    try (intros p _; by apply grows_file_at); try done.
  - intros p Hp. unfold file_at. rewrite lookup_insert_ne by done.
    by apply grows_file_at.
  - intros _. exists fs1, binary. by rewrite Hstat, Hdir.
  - intros p Hp. unfold file_at. rewrite lookup_insert_ne by done.
    by apply grows_file_at.
  - intros _. exists fs1, binary. by rewrite Hstat, Hdir.
Qed.

(** What is written can be read.  When [Set] returns nil and the decoder
    reads back what the encoder wrote, [Get] of the key answers with the
    value at every instant before [now + lifetime], and from that instant on
    with [os.ErrNotExist] and an asynchronous [Delete]. *)
Theorem fileStore_Set_then_Get (sha1_hex : string → string) (encoder : Encoder)
    (s : fileStore.t) (fs fs' : gmap string fileStore.node) (key : string)
    (value : any) (lifetime : Duration) (later : time) :
  fileStore_Set sha1_hex encoder s fs key value lifetime = Some (fs', None) →
  (∀ binary,
     encoder {| fileStore.Value := value;
                fileStore.ExpiredAt := Add (fileStore.nowFunc s) lifetime |}
     = (binary, None) →
     fileStore.decoder s binary
     = (fileStore.PtrFileItem
          (Some {| fileStore.Value := value;
                   fileStore.ExpiredAt := Add (fileStore.nowFunc s) lifetime |}),
        None)) →
  fileStore.Get sha1_hex (at_time s later) fs' key =
  if decide (fileStore.nowFunc s + lifetime ≤ later)
  then Some (Nil, Some ErrNotExist, Some key)
  else Some (value, None, None).
Proof.
  intros Hset Hcodec.
  destruct (fileStore_Set_spec sha1_hex encoder s fs key value lifetime)
    as (fs0 & err & Hset' & _ & Hok).
  rewrite Hset in Hset'. injection Hset' as <- <-.
  destruct (Hok eq_refl) as (fs1 & binary & Henc & _ & _ & _ & ->).
  rewrite (Get_item sha1_hex (at_time s later) _ key binary
             {| fileStore.Value := value;
                fileStore.ExpiredAt := Add (fileStore.nowFunc s) lifetime |}).
  - done.
  - rewrite filename_at_time. apply lookup_insert_eq.
  - by apply Hcodec.
Qed.

(** The round trip at the key "k", read before and at its expiration. *)
Lemma fileStore_Set_then_Get_witness :
  fileStore_Set sha1_hex_of byte_encoder (byte_store 2) ∅ "k" (Str "v") 5
  = Some (disk_k, None) ∧
  fileStore.Get sha1_hex_of (at_time (byte_store 2) 6) disk_k "k"
  = Some (Str "v", None, None) ∧
  fileStore.Get sha1_hex_of (at_time (byte_store 2) 7) disk_k "k"
  = Some (Nil, Some ErrNotExist, Some "k").
Proof.
  split; [reflexivity|]. split.
  - apply (fileStore_Set_then_Get sha1_hex_of byte_encoder (byte_store 2) ∅ disk_k "k"
             (Str "v") 5 6); [reflexivity|].
    intros binary [= <-]. reflexivity.
  - apply (fileStore_Set_then_Get sha1_hex_of byte_encoder (byte_store 2) ∅ disk_k "k"
             (Str "v") 5 7); [reflexivity|].
    intros binary [= <-]. reflexivity.
Defined.

(** [Set] of a key that has a file replaces the file's content in place:
    after a [Set] that returned nil, a further [Set] of the key, at any
    instant and with any value that the encoder accepts, returns nil and
    changes the key's file and nothing else; no path is added. *)
Theorem fileStore_Set_replaces_in_place (sha1_hex : string → string)
    (encoder : Encoder) (s : fileStore.t) (fs fs1 : gmap string fileStore.node)
    (key : string) (value : any) (lifetime : Duration) (now2 : time) (value2 : any)
    (lifetime2 : Duration) (binary2 : list Byte.byte) :
  fileStore_Set sha1_hex encoder s fs key value lifetime = Some (fs1, None) →
  encoder {| fileStore.Value := value2; fileStore.ExpiredAt := Add now2 lifetime2 |}
  = (binary2, None) →
  fileStore_Set sha1_hex encoder (at_time s now2) fs1 key value2 lifetime2
  = Some (<[fileStore.filename sha1_hex s key := fileStore.File binary2]> fs1, None) ∧
  dom (<[fileStore.filename sha1_hex s key := fileStore.File binary2]> fs1) = dom fs1.
Proof.
  intros Hset Henc2.
  destruct (fileStore_Set_spec sha1_hex encoder s fs key value lifetime)
    as (fs0 & err & Hset' & _ & Hok).
  rewrite Hset in Hset'. injection Hset' as <- <-.
  destruct (Hok eq_refl) as (fs0 & binary & _ & _ & Hnodir & Hdir & ->).
  set (f := fileStore.filename sha1_hex s key) in *.
  assert (f ≠ "."%string ∧ f ≠ "/"%string) as [Hdot Hroot].
  { split; intros Heq; apply Hnodir; unfold os.Stat; rewrite decide_True; auto. }
  assert (os.Stat (<[f := fileStore.File binary]> fs0) f
          = Some (fileStore.File binary)) as Hstat1.
  { unfold os.Stat. rewrite decide_False by (intros [?|?]; done).
    apply lookup_insert_eq. }
  assert (os.Stat (<[f := fileStore.File binary]> fs0) (filepath.Dir f)
          = Some fileStore.Dir) as Hdir1.
  { unfold os.Stat in *. case_decide; [done|].
    rewrite lookup_insert_ne; [done|].
    intros Heq. symmetry in Heq. apply Dir_fixed in Heq as [?|?]; done. }
  split.
  - unfold fileStore_Set. simpl. unfold Add in Henc2. unfold Add. rewrite Henc2.
    rewrite filename_at_time. fold f.
    rewrite (MkdirAll_existing _ _ Hdir1). simpl.
    unfold os.WriteFile. by rewrite Hstat1, Hdir1.
  - apply dom_insert_lookup_L. rewrite lookup_insert_eq. by eexists.
Qed.

(** Two writes of the key "k": the second replaces the file of the first. *)
Lemma fileStore_Set_replaces_in_place_witness :
  fileStore_Set sha1_hex_of byte_encoder (byte_store 2) ∅ "k" (Str "v") 5
  = Some (disk_k, None) ∧
  byte_encoder {| fileStore.Value := Str "w"; fileStore.ExpiredAt := Add 4 9 |}
  = ([Byte.x0d; Byte.x77], None) ∧
  fileStore_Set sha1_hex_of byte_encoder (at_time (byte_store 2) 4) disk_k "k" (Str "w") 9
  = Some (<[fileStore.filename sha1_hex_of (byte_store 2) "k"
            := fileStore.File [Byte.x0d; Byte.x77]]> disk_k, None) ∧
  dom (<[fileStore.filename sha1_hex_of (byte_store 2) "k"
         := fileStore.File [Byte.x0d; Byte.x77]]> disk_k) = dom disk_k.
Proof.
  split; [reflexivity|]. split; [reflexivity|].
  apply (fileStore_Set_replaces_in_place sha1_hex_of byte_encoder (byte_store 2) ∅ disk_k
           "k" (Str "v") 5 4 (Str "w") 9 [Byte.x0d; Byte.x77]); reflexivity.
Defined.

(** [Set] and [Delete] of one key leave the other keys alone: whether they
    succeed or fail, [Get] of a key with another file name answers as
    before. *)
Theorem fileStore_Set_and_Delete_leave_other_keys (sha1_hex : string → string)
    (encoder : Encoder) (s : fileStore.t) (fs : gmap string fileStore.node)
    (key : string) (value : any) (lifetime : Duration) (other : string) (later : time) :
  fileStore.filename sha1_hex s other ≠ fileStore.filename sha1_hex s key →
  ∃ fs' err,
    fileStore_Set sha1_hex encoder s fs key value lifetime = Some (fs', err) ∧
    fileStore.Get sha1_hex (at_time s later) fs' other
    = fileStore.Get sha1_hex (at_time s later) fs other ∧
    fileStore.Get sha1_hex (at_time s later) (fileStore_Delete sha1_hex s fs key).1 other
    = fileStore.Get sha1_hex (at_time s later) fs other.
Proof.
  intros Hne.
  destruct (fileStore_Set_spec sha1_hex encoder s fs key value lifetime)
    as (fs' & err & Hset & Hframe & _).
  exists fs', err. split_and!; [done| |].
  - apply Get_file_at. rewrite filename_at_time. by apply Hframe.
  - apply Get_file_at. rewrite filename_at_time.
    unfold fileStore_Delete, os.Remove.
    destruct (fs !! fileStore.filename sha1_hex s key) as [[c|]|]; simpl; [|
      destruct (os.has_entries fs (fileStore.filename sha1_hex s key)); simpl|done];
      try done; unfold file_at; by rewrite lookup_delete_ne.
Qed.

(** The frame property at the key "k", on a directory that holds the key
    "a". *)
Lemma fileStore_Set_and_Delete_leave_other_keys_witness :
  fileStore.filename sha1_hex_of (byte_store 1) "a"
  ≠ fileStore.filename sha1_hex_of (byte_store 1) "k" ∧
  ∃ fs' err,
    fileStore_Set sha1_hex_of byte_encoder (byte_store 1) disk_a "k" (Str "v") 5
    = Some (fs', err) ∧
    fileStore.Get sha1_hex_of (at_time (byte_store 1) 3) fs' "a"
    = fileStore.Get sha1_hex_of (at_time (byte_store 1) 3) disk_a "a" ∧
    fileStore.Get sha1_hex_of (at_time (byte_store 1) 3)
      (fileStore_Delete sha1_hex_of (byte_store 1) disk_a "k").1 "a"
    = fileStore.Get sha1_hex_of (at_time (byte_store 1) 3) disk_a "a".
Proof.
  assert (fileStore.filename sha1_hex_of (byte_store 1) "a"
          ≠ fileStore.filename sha1_hex_of (byte_store 1) "k") as Hne.
  { intros Heq. vm_compute in Heq. discriminate Heq. }
  split; [exact Hne|].
  exact (fileStore_Set_and_Delete_leave_other_keys sha1_hex_of byte_encoder
           (byte_store 1) disk_a "k" (Str "v") 5 "a" 3 Hne).
Defined.

(** ** [Delete] and [Flush] *)




(** A read that finds the entry expired launches a [Delete] of that key,
    and this [Delete], run on the file system that the read saw, returns nil
    and removes the key's file; a further read launches nothing. *)
Theorem fileStore_Get_expired_then_Delete (sha1_hex : string → string)
    (s : fileStore.t) (fs : gmap string fileStore.node) (key launched : string)
    (r : any) (e : option error) :
  fileStore.Get sha1_hex s fs key = Some (r, e, Some launched) →
  launched = key ∧ r = Nil ∧ e = Some ErrNotExist ∧
  fileStore_Delete sha1_hex s fs launched
  = (delete (fileStore.filename sha1_hex s key) fs, None) ∧
  fileStore.Get sha1_hex s (delete (fileStore.filename sha1_hex s key) fs) key
  = Some (Nil, Some ErrNotExist, None).
Proof.
  unfold fileStore.Get, fileStore.isFile, fileStore.read, fileStore.ReadFile,
    fileStore_Delete, os.Remove.
  set (f := fileStore.filename sha1_hex s key).
  rewrite lookup_delete_eq.
  destruct (fs !! f) as [[c|]|] eqn:Hf; simpl; [|done..].
  destruct (fileStore.decoder s c) as [v [err|]]; [done|].
  destruct v as [[item|]|v]; simpl; [|done..].
  destruct (negb (After (fileStore.ExpiredAt item) (fileStore.nowFunc s))); [|done].
  intros [= <- <- <-]. fold f. by rewrite Hf.
Qed.

(** The read of the key "2" of the example directory at its expiration. *)
Lemma fileStore_Get_expired_then_Delete_witness :
  fileStore.Get sha1_hex_of (byte_store 2) disk_123 "2"
  = Some (Nil, Some ErrNotExist, Some "2") ∧
  fileStore_Delete sha1_hex_of (byte_store 2) disk_123 "2"
  = (delete (fileStore.filename sha1_hex_of (byte_store 2) "2") disk_123, None) ∧
  fileStore.Get sha1_hex_of (byte_store 2)
    (delete (fileStore.filename sha1_hex_of (byte_store 2) "2") disk_123) "2"
  = Some (Nil, Some ErrNotExist, None).
Proof.
  split; [vm_compute; reflexivity|].
  apply (fileStore_Get_expired_then_Delete sha1_hex_of (byte_store 2) disk_123 "2" "2"
           Nil (Some ErrNotExist)).
  vm_compute. reflexivity.
Defined.

(** ** [GC] *)

Lemma read_lookup (s : fileStore.t) (fs fs' : gmap string fileStore.node) (p : string) :
  fs' !! p = fs !! p → fileStore.read s fs' p = fileStore.read s fs p.
Proof. intros Heq. unfold fileStore.read, fileStore.ReadFile. by rewrite Heq. Qed.

Lemma read_Some (s : fileStore.t) (fs : gmap string fileStore.node) (p : string)
    (item : fileStore.fileItem) :
  fileStore.read s fs p = (Some item, None) →
  ∃ content, fs !! p = Some (fileStore.File content) ∧
    fileStore.decoder s content = (fileStore.PtrFileItem (Some item), None).
Proof.
  unfold fileStore.read, fileStore.ReadFile.
  destruct (fs !! p) as [[content|]|]; [|done..].
  destruct (fileStore.decoder s content) as [v [err|]] eqn:Hdec; [done|].
  destruct v as [[item'|]|v]; [|done..].
  intros [= ->]. by exists content.
Qed.

Lemma Remove_file (fs : gmap string fileStore.node) (p : string)
    (content : list Byte.byte) :
  fs !! p = Some (fileStore.File content) → os.Remove fs p = (delete p fs, None).
Proof. intros Hp. unfold os.Remove. by rewrite Hp. Qed.

Lemma reclaimed_refl (s : fileStore.t) (fs : gmap string fileStore.node) :
  reclaimed s fs fs.
Proof. intros p. by left. Qed.

Lemma GC_visit_reclaimed (s : fileStore.t) (ctx : Context) (polls : nat)
    (fs0 fs : gmap string fileStore.node) (v : visit) :
  (∀ binary, fileStore.decoder s binary ≠ (fileStore.PtrFileItem None, None)) →
  reclaimed s fs0 fs →
  ∃ fs' err, GC_visit s ctx polls fs v = Some (fs', err) ∧ reclaimed s fs0 fs'.
Proof.
  intros Hsound Hrec. unfold GC_visit.
  destruct (ctx polls); [by eexists _, _|].
  destruct (v_err v); [by eexists _, _|].
  destruct (v_isDir v); [by eexists _, _|].
  destruct (fileStore.read s fs (v_path v)) as [item err] eqn:Hread.
  destruct err as [err|]; [by eexists _, _|].
  destruct item as [item|].
  - apply read_Some in Hread as (content & Hfile & Hdec). simpl.
    unfold After. destruct (fileStore.nowFunc s <? fileStore.ExpiredAt item) eqn:Hlt;
      [by eexists _, _|].
    apply Z.ltb_ge in Hlt. rewrite (Remove_file _ _ _ Hfile).
    eexists _, _. split; [done|]. intros p.
    destruct (decide (p = v_path v)) as [->|Hne].
    + right. split; [apply lookup_delete_eq|]. exists content, item.
      split_and!; [|done|done].
      destruct (Hrec (v_path v)) as [Heq|[Heq _]]; congruence.
    + rewrite lookup_delete_ne by done. apply Hrec.
  - exfalso. revert Hread. unfold fileStore.read, fileStore.ReadFile.
    destruct (fs !! v_path v) as [[content|]|]; [|done..].
    destruct (fileStore.decoder s content) as [w [err|]] eqn:Hdec; [done|].
    destruct w as [[item'|]|w]; [done| |done].
    by destruct (Hsound content).
Qed.

Lemma WalkDir_reclaimed (s : fileStore.t) (ctx : Context) (polls : nat)
    (fs0 fs : gmap string fileStore.node) (walk : list visit) :
  (∀ binary, fileStore.decoder s binary ≠ (fileStore.PtrFileItem None, None)) →
  reclaimed s fs0 fs →
  ∃ fs' err polls',
    WalkDir (GC_visit s ctx) polls fs walk = Some (fs', err, polls') ∧
    reclaimed s fs0 fs'.
Proof.
  intros Hsound. revert polls fs.
  induction walk as [|v walk IH]; intros polls fs Hrec; simpl; [by eexists _, _, _|].
  destruct (GC_visit_reclaimed s ctx polls fs0 fs v Hsound Hrec)
    as (fs1 & err & -> & Hrec1). simpl.
  destruct err as [err|]; [by eexists _, _, _|].
  by apply IH.
Qed.

(** [GC] removes nothing but files that hold an expired item.  With a
    decoder that hands back no nil item without an error, [GC] returns for
    every context and every walk, and the file system it leaves differs from
    the one it found only by the absence of files whose content decodes,
    without error, to an item that expires at or before the current instant:
    directories, files that expire later and files that cannot be decoded
    all stay. *)
Theorem fileStore_GC_removes_only_expired_files (s : fileStore.t) (ctx : Context)
    (fs : gmap string fileStore.node) (walk : list visit) :
  (∀ binary, fileStore.decoder s binary ≠ (fileStore.PtrFileItem None, None)) →
  ∃ fs' err,
    fileStore_GC s ctx fs walk = Some (fs', err) ∧
    ∀ p, fs' !! p = fs !! p ∨
         (fs' !! p = None ∧
          ∃ content item, fs !! p = Some (fileStore.File content) ∧
            fileStore.decoder s content = (fileStore.PtrFileItem (Some item), None) ∧
            fileStore.ExpiredAt item ≤ fileStore.nowFunc s).
Proof.
  intros Hsound.
  destruct (WalkDir_reclaimed s ctx 0 fs fs walk Hsound (reclaimed_refl s fs))
    as (fs' & err & polls & Hwalk & Hrec).
  unfold fileStore_GC. rewrite Hwalk. simpl.
  destruct err as [err|]; [case_decide|]; by eexists _, _.
Qed.

(** [GC] of the example directory at the instant 2. *)
Lemma fileStore_GC_removes_only_expired_files_witness :
  (∀ binary, fileStore.decoder (byte_store 2) binary
             ≠ (fileStore.PtrFileItem None, None)) ∧
  ∃ fs' err,
    fileStore_GC (byte_store 2) Background disk_123 walk_123 = Some (fs', err) ∧
    ∀ p, fs' !! p = disk_123 !! p ∨
         (fs' !! p = None ∧
          ∃ content item, disk_123 !! p = Some (fileStore.File content) ∧
            fileStore.decoder (byte_store 2) content
            = (fileStore.PtrFileItem (Some item), None) ∧
            fileStore.ExpiredAt item ≤ fileStore.nowFunc (byte_store 2)).
Proof.
  assert (∀ binary, fileStore.decoder (byte_store 2) binary
                    ≠ (fileStore.PtrFileItem None, None)) as Hsound.
  { by intros [|b rest]. }
  split; [exact Hsound|].
  exact (fileStore_GC_removes_only_expired_files (byte_store 2) Background disk_123
           walk_123 Hsound).
Defined.

Lemma reclaimable_lookup (s : fileStore.t) (fs fs' : gmap string fileStore.node)
    (p : string) :
  fs' !! p = fs !! p → reclaimable s fs' p = reclaimable s fs p.
Proof. intros Heq. unfold reclaimable. by rewrite (read_lookup s fs fs' p Heq). Qed.

Lemma files_cons (v : visit) (walk : list visit) :
  files (v :: walk) = if v_isDir v then files walk else v_path v :: files walk.
Proof.
  unfold files. rewrite filter_cons. destruct (v_isDir v); by case_decide.
Qed.

Lemma WalkDir_cons (fn : nat → gmap string fileStore.node → visit
                         → option (gmap string fileStore.node * option error))
    (polls : nat) (fs : gmap string fileStore.node) (v : visit) (walk : list visit) :
  WalkDir fn polls fs (v :: walk) =
  match fn polls fs v with
  | Some (fs', Some err) => Some (fs', Some err, S polls)
  | Some (fs', None) => WalkDir fn (S polls) fs' walk
  | None => None
  end.
Proof. simpl. by destruct (fn polls fs v) as [[fs' [err|]]|]. Qed.

Lemma GC_visit_dir (s : fileStore.t) (polls : nat) (fs : gmap string fileStore.node)
    (v : visit) :
  v_err v = None → v_isDir v = true →
  GC_visit s Background polls fs v = Some (fs, None).
Proof. intros Herr Hdir. unfold GC_visit. simpl. by rewrite Herr, Hdir. Qed.

Lemma GC_visit_file (s : fileStore.t) (polls : nat) (fs : gmap string fileStore.node)
    (v : visit) (r : option fileStore.fileItem * option error) :
  v_err v = None → v_isDir v = false → fileStore.read s fs (v_path v) = r →
  GC_visit s Background polls fs v =
  match r with
  | (_, Some err) => Some (fs, Some err)
  | (None, None) => None
  | (Some item, None) =>
      if After (fileStore.ExpiredAt item) (fileStore.nowFunc s) then Some (fs, None)
      else Some (os.Remove fs (v_path v))
  end.
Proof.
  intros Herr Hdir <-. unfold GC_visit. simpl. rewrite Herr, Hdir.
  by destruct (fileStore.read s fs (v_path v)) as [[item|] [err|]].
Qed.

Lemma WalkDir_clean (s : fileStore.t) (polls : nat) (fs : gmap string fileStore.node)
    (walk : list visit) :
  readable s fs walk → NoDup (files walk) →
  ∃ fs',
    WalkDir (GC_visit s Background) polls fs walk = Some (fs', None, (polls + length walk)%nat) ∧
    ∀ p, fs' !! p = if bool_decide (p ∈ files walk) && reclaimable s fs p
                    then None else fs !! p.
Proof.
  revert polls fs. induction walk as [|v walk IH]; intros polls fs Hread Hnd.
  { exists fs. simpl. rewrite Nat.add_0_r. by split. }
  apply Forall_cons in Hread as [[Herr Hitem] Hread].
  rewrite files_cons in Hnd.
  replace (polls + length (v :: walk))%nat with (S polls + length walk)%nat
    by (simpl; lia).
  rewrite WalkDir_cons.
  destruct (v_isDir v) eqn:Hdir.
  { rewrite (GC_visit_dir s polls fs v Herr Hdir).
    destruct (IH (S polls) fs Hread Hnd) as (fs' & -> & Hfs').
    exists fs'. split; [done|]. intros p. by rewrite files_cons, Hdir. }
  destruct (Hitem eq_refl) as (item & Hitem').
  apply NoDup_cons in Hnd as [Hfresh Hnd].
  rewrite (GC_visit_file s polls fs v _ Herr Hdir Hitem').
  assert (reclaimable s fs (v_path v)
          = negb (After (fileStore.ExpiredAt item) (fileStore.nowFunc s))) as Hrecl.
  { unfold reclaimable. by rewrite Hitem'. }
  destruct (After (fileStore.ExpiredAt item) (fileStore.nowFunc s)) eqn:Hlive.
  - simpl. destruct (IH (S polls) fs Hread Hnd) as (fs' & -> & Hfs').
    exists fs'. split; [done|]. intros p. rewrite files_cons, Hdir, Hfs'.
    destruct (decide (p = v_path v)) as [->|Hne].
    + rewrite Hrecl. simpl. by rewrite !andb_false_r.
    + replace (bool_decide (p ∈ v_path v :: files walk))
        with (bool_decide (p ∈ files walk)); [done|].
      apply bool_decide_ext. rewrite elem_of_cons.
      split; [by right|by intros [?|?]].
  - apply read_Some in Hitem' as (content & Hfile & Hdec).
    rewrite (Remove_file _ _ _ Hfile). simpl.
    destruct (IH (S polls) (delete (v_path v) fs)) as (fs' & -> & Hfs'); [|done|].
    { unfold readable in *. rewrite Forall_forall in Hread |- *. intros v' Hv'.
      destruct (Hread v' Hv') as [Herr' Hitem'']. split; [done|].
      intros Hfile'. destruct (Hitem'' Hfile') as (item' & Hr). exists item'.
      rewrite <- Hr. apply read_lookup, lookup_delete_ne.
      intros Heq. apply Hfresh. unfold files. rewrite Heq.
      apply list_elem_of_fmap_2, list_elem_of_filter. by split. }
    exists fs'. split; [done|]. intros p. rewrite files_cons, Hdir, Hfs'.
    destruct (decide (p = v_path v)) as [->|Hne].
    + rewrite (bool_decide_eq_false_2 _ Hfresh). simpl.
      rewrite bool_decide_eq_true_2 by apply list_elem_of_here.
      rewrite Hrecl. simpl. apply lookup_delete_eq.
    + rewrite (reclaimable_lookup s fs (delete (v_path v) fs) p)
        by (by apply lookup_delete_ne).
      rewrite lookup_delete_ne by done.
      replace (bool_decide (p ∈ v_path v :: files walk))
        with (bool_decide (p ∈ files walk)); [done|].
      apply bool_decide_ext. rewrite elem_of_cons.
      split; [by right|by intros [?|?]].
Qed.

(** [GC] removes every expired file of a readable walk.  When the context
    is never done, the walk lists without error, names no file twice, and
    every file it presents holds a readable item, [GC] returns nil and has
    removed exactly the presented files whose item expires at or before the
    current instant; every other path is as it was. *)
Theorem fileStore_GC_removes_every_expired_file (s : fileStore.t)
    (fs : gmap string fileStore.node) (walk : list visit) :
  readable s fs walk → NoDup (files walk) →
  ∃ fs',
    fileStore_GC s Background fs walk = Some (fs', None) ∧
    ∀ p, fs' !! p = if bool_decide (p ∈ files walk) && reclaimable s fs p
                    then None else fs !! p.
Proof.
  intros Hread Hnd.
  destruct (WalkDir_clean s 0 fs walk Hread Hnd) as (fs' & Hwalk & Hfs').
  exists fs'. unfold fileStore_GC. by rewrite Hwalk.
Qed.

(** [GC] of the example directory at the instant 2 removes the files of
    the keys "1" and "2" and keeps the file of the key "3". *)
Lemma fileStore_GC_removes_every_expired_file_witness :
  readable (byte_store 2) disk_123 walk_123 ∧ NoDup (files walk_123) ∧
  ∃ fs',
    fileStore_GC (byte_store 2) Background disk_123 walk_123 = Some (fs', None) ∧
    ∀ p, fs' !! p = if bool_decide (p ∈ files walk_123) && reclaimable (byte_store 2) disk_123 p
                    then None else disk_123 !! p.
Proof.
  assert (readable (byte_store 2) disk_123 walk_123) as Hread.
  { repeat constructor; try done; intros _; eexists; vm_compute; reflexivity. }
  assert (NoDup (files walk_123)) as Hnd.
  { apply (bool_decide_unpack (NoDup (files walk_123))). vm_compute. exact I. }
  split; [exact Hread|]. split; [exact Hnd|].
  exact (fileStore_GC_removes_every_expired_file (byte_store 2) disk_123 walk_123
           Hread Hnd).
Defined.

Lemma WalkDir_app (fn : nat → gmap string fileStore.node → visit
                        → option (gmap string fileStore.node * option error))
    (polls : nat) (fs : gmap string fileStore.node) (pre post : list visit) :
  WalkDir fn polls fs (pre ++ post) =
  match WalkDir fn polls fs pre with
  | Some (fs', None, polls') => WalkDir fn polls' fs' post
  | r => r
  end.
Proof.
  revert polls fs. induction pre as [|v pre IH]; intros polls fs; [done|].
  rewrite <- app_comm_cons, !WalkDir_cons.
  destruct (fn polls fs v) as [[fs' [err|]]|]; [done| |done]. apply IH.
Qed.

Lemma WalkDir_polls (fn : nat → gmap string fileStore.node → visit
                          → option (gmap string fileStore.node * option error))
    (polls polls' : nat) (fs fs' : gmap string fileStore.node) (walk : list visit) :
  WalkDir fn polls fs walk = Some (fs', None, polls') →
  polls' = (polls + length walk)%nat.
Proof.
  revert polls fs. induction walk as [|v walk IH]; intros polls fs.
  - simpl. intros [= _ <-]. lia.
  - rewrite WalkDir_cons. destruct (fn polls fs v) as [[fs1 [err|]]|]; [done| |done].
    intros Hwalk. apply IH in Hwalk. simpl. lia.
Qed.

(** A cancelled [GC] stops where it is and reports no error.  When the
    [n]-th poll finds the context done, and so does the next reading, [GC]
    returns what it returns on the first [n] entries of the walk alone: the
    later entries are not looked at, and the error of the context is
    dropped. *)
Theorem fileStore_GC_cancelled (s : fileStore.t) (ctx : Context)
    (fs : gmap string fileStore.node) (walk : list visit) (n : nat) :
  ctx n = true → ctx (S n) = true →
  fileStore_GC s ctx fs walk = fileStore_GC s ctx fs (take n walk).
Proof.
  intros Hn HSn. rewrite <- (take_drop n walk) at 1.
  unfold fileStore_GC. rewrite WalkDir_app.
  destruct (WalkDir (GC_visit s ctx) 0 fs (take n walk))
    as [[[fs' [err|]] polls']|] eqn:Hpre; [done| |done].
  apply WalkDir_polls in Hpre as Hpolls. simpl in Hpolls.
  destruct (drop n walk) as [|v post] eqn:Hdrop; [done|].
  assert (polls' = n) as ->.
  { rewrite Hpolls, length_take. apply Nat.min_l.
    destruct (decide (n ≤ length walk)%nat); [done|].
    rewrite drop_ge in Hdrop by lia. done. }
  rewrite WalkDir_cons. unfold GC_visit. rewrite Hn. simpl.
  unfold ctx_Err. rewrite HSn. by rewrite decide_True.
Qed.

(** [GC] of the example directory at the instant 2, cancelled at the fifth
    poll: the file of the key "1" is gone, the expired file of the key "2",
    which the walk presents later, is still there, and the result is nil. *)
Lemma fileStore_GC_cancelled_witness :
  done_from 4 4%nat = true ∧ done_from 4 5%nat = true ∧
  fileStore_GC (byte_store 2) (done_from 4) disk_123 walk_123
  = fileStore_GC (byte_store 2) (done_from 4) disk_123 (take 4 walk_123) ∧
  fileStore_GC (byte_store 2) (done_from 4) disk_123 (take 4 walk_123)
  = Some (delete "cache/3/5/356a192b7913b04c54574d18c28d46e6395428ab" disk_123, None).
Proof.
  split; [reflexivity|]. split; [reflexivity|]. split.
  - apply (fileStore_GC_cancelled (byte_store 2) (done_from 4) disk_123 walk_123 4);
      reflexivity.
  - reflexivity.
Defined.

(** [GC] gives up at the first file it cannot read.  When the walk so far
    went without error and [read] fails on the next file, [GC] returns that
    error at once and leaves the file system as the walk so far left it,
    whatever the walk presents afterwards. *)
Theorem fileStore_GC_stops_at_unreadable_file (s : fileStore.t)
    (fs fs1 : gmap string fileStore.node) (pre post : list visit) (v : visit)
    (err : error) :
  fileStore_GC s Background fs pre = Some (fs1, None) →
  v_err v = None → v_isDir v = false →
  fileStore.read s fs1 (v_path v) = (None, Some err) →
  fileStore_GC s Background fs (pre ++ v :: post) = Some (fs1, Some err).
Proof.
  unfold fileStore_GC. intros Hpre Herr Hdir Hread. rewrite WalkDir_app.
  destruct (WalkDir (GC_visit s Background) 0 fs pre)
    as [[[fs' [e|]] polls']|]; [by simplify_eq/=| |done].
  assert (fs' = fs1) as -> by (by simplify_eq/=).
  rewrite WalkDir_cons.
  by rewrite (GC_visit_file s polls' fs1 v _ Herr Hdir Hread).
Qed.

(** The example directory with the file of the key "1" emptied: [GC] at
    the instant 2 fails on it with the decoder's error, and the expired file
    of the key "2", which the walk presents later, stays. *)
Lemma fileStore_GC_stops_at_unreadable_file_witness :
  fileStore_GC (byte_store 2) Background disk_123_torn (take 3 walk_123)
  = Some (disk_123_torn, None) ∧
  fileStore.read (byte_store 2) disk_123_torn
    "cache/3/5/356a192b7913b04c54574d18c28d46e6395428ab"
  = (None, Some (ErrWrap (ErrMsg "EOF") "decode")) ∧
  fileStore_GC (byte_store 2) Background disk_123_torn
    (take 3 walk_123 ++ {| v_path := "cache/3/5/356a192b7913b04c54574d18c28d46e6395428ab";
                           v_isDir := false; v_err := None |} :: drop 4 walk_123)
  = Some (disk_123_torn, Some (ErrWrap (ErrMsg "EOF") "decode")).
Proof.
  split; [reflexivity|]. split; [reflexivity|].
  apply (fileStore_GC_stops_at_unreadable_file (byte_store 2) disk_123_torn disk_123_torn
           (take 3 walk_123) (drop 4 walk_123)
           {| v_path := "cache/3/5/356a192b7913b04c54574d18c28d46e6395428ab";
              v_isDir := false; v_err := None |}
           (ErrWrap (ErrMsg "EOF") "decode")); reflexivity.
Defined.
